(** * i18n-gen: extraction of translation keys from .proto files and
      regeneration of the per-language TOML catalogs.

    A shallow embedding of [main.go]: the pieces of Go's [strings] and
    [bufio] packages the program calls, the file system as a finite map,
    then [parseProto], the aggregation loop of [main], [loadExistingTOML]
    and [generateTOML], followed by the properties of the catalog merge. *)

From Stdlib Require Import ZArith NArith Ascii String List Lia.
From stdpp Require Import base option list gmap strings.

Local Open Scope Z_scope.

(** ** Go strings

    A Go [string] is a sequence of bytes: [string] here, one [ascii] per
    byte.  Indices are Go [int]s, modelled in [Z]; every index the program
    computes is bounded by a string length, so no wrap-around arises. *)

Module GoStrings.

Definition LF : ascii := "010"%char.
Definition CR : ascii := "013"%char.
Definition DQ : ascii := "034"%char.

(** A one-byte string, and the two that have no readable literal. *)
Definition str1 (c : ascii) : string := String c EmptyString.
Definition nl : string := str1 LF.
Definition dq : string := str1 DQ.

Definition len (s : string) : Z := Z.of_nat (String.length s).

Fixpoint strrev (s : string) : string :=
  match s with
  | EmptyString => EmptyString
  | String c s' => strrev s' +:+ str1 c
  end.

(** [strings.HasPrefix(s, prefix)]. *)
Fixpoint HasPrefix (s prefix : string) {struct prefix} : bool :=
  match prefix with
  | EmptyString => true
  | String p prefix' =>
      match s with
      | EmptyString => false
      | String c s' => if Ascii.eqb c p then HasPrefix s' prefix' else false
      end
  end.

(** [strings.HasSuffix(s, suffix)]: the last [len(suffix)] bytes of [s]
    are [suffix], read here from the end backwards. *)
Definition HasSuffix (s suffix : string) : bool :=
  HasPrefix (strrev s) (strrev suffix).

(** [strings.Contains(s, substr)]: [substr] starts at some offset of [s]. *)
Fixpoint Contains (s substr : string) : bool :=
  HasPrefix s substr ||
  match s with
  | EmptyString => false
  | String _ s' => Contains s' substr
  end.

(** [strings.Index(s, substr)]: the least offset at which [substr] starts,
    or [-1]. *)
Fixpoint Index (s substr : string) : Z :=
  if HasPrefix s substr then 0
  else match s with
       | EmptyString => -1
       | String _ s' => let i := Index s' substr in
                        if i <? 0 then -1 else i + 1
       end.

(** [strings.LastIndex(s, substr)]: the greatest such offset, or [-1]. *)
Fixpoint LastIndex (s substr : string) : Z :=
  match s with
  | EmptyString => if HasPrefix s substr then 0 else -1
  | String _ s' => let i := LastIndex s' substr in
                   if 0 <=? i then i + 1
                   else if HasPrefix s substr then 0 else -1
  end.

(** The slice expression [s[lo:hi]]; the program only evaluates it with
    [0 <= lo <= hi <= len(s)], where Go does not panic. *)
Definition slice (s : string) (lo hi : Z) : string :=
  String.substring (Z.to_nat lo) (Z.to_nat (hi - lo)) s.

(** [s[lo:]]. *)
Definition slice_from (s : string) (lo : Z) : string := slice s lo (len s).

(** [unicode.IsSpace] on the UTF-8 encoded rune at the front of a string:
    the six ASCII spaces, U+0085, U+00A0, U+1680, U+2000..U+200A, U+2028,
    U+2029, U+202F, U+205F and U+3000.  [space_width s] is the number of
    bytes of that rune, [0] when the first rune of [s] is not a space (an
    invalid byte decodes to U+FFFD, which is not one). *)
Definition ascii_space (c : ascii) : bool :=
  match c with
  | "009" | "010" | "011" | "012" | "013" | " " => true
  | _ => false
  end%char.

(** The third byte of U+2000..U+200A, U+2028, U+2029 and U+202F, which
    all begin E2 80. *)
Definition general_punctuation_space (c : ascii) : bool :=
  let n := N_of_ascii c in
  ((128 <=? n) && (n <=? 138) || (n =? 168) || (n =? 169) || (n =? 175))%N.

Definition space_width (s : string) : nat :=
  match s with
  | EmptyString => 0
  | String c s' =>
      if ascii_space c then 1
      else if (N_of_ascii c <? 128)%N then 0
      else
        match c, s' with
        | "194", String "133" _ => 2
        | "194", String "160" _ => 2
        | "225", String "154" (String "128" _) => 3
        | "226", String "128" (String d _) =>
            if general_punctuation_space d then 3 else 0
        | "226", String "129" (String "159" _) => 3
        | "227", String "128" (String "128" _) => 3
        | _, _ => 0
        end
  end%char%nat.

(** The same test on the last rune of a string, given the string reversed
    (the bytes of the rune come last byte first). *)
Definition space_width_rev (r : string) : nat :=
  match r with
  | EmptyString => 0
  | String c r' =>
      if ascii_space c then 1
      else if (N_of_ascii c <? 128)%N then 0
      else
        match r' with
        | String "194" _ =>
            if (N_of_ascii c =? 133)%N || (N_of_ascii c =? 160)%N then 2 else 0
        | String "154" (String "225" _) =>
            if (N_of_ascii c =? 128)%N then 3 else 0
        | String "128" (String "226" _) =>
            if general_punctuation_space c then 3 else 0
        | String "129" (String "226" _) =>
            if (N_of_ascii c =? 159)%N then 3 else 0
        | String "128" (String "227" _) =>
            if (N_of_ascii c =? 128)%N then 3 else 0
        | _ => 0
        end
  end%char%nat.

Fixpoint drop_bytes (n : nat) (s : string) : string :=
  match n, s with
  | S n', String _ s' => drop_bytes n' s'
  | _, _ => s
  end.

(** Leading spaces are removed rune by rune; the fuel is the byte length,
    and each removed rune takes at least one byte. *)
Fixpoint trim_left_with (width : string -> nat) (fuel : nat) (s : string)
  : string :=
  match fuel with
  | O => s
  | S fuel' =>
      match width s with
      | O => s
      | w => trim_left_with width fuel' (drop_bytes w s)
      end
  end.

Definition TrimLeftSpace (s : string) : string :=
  trim_left_with space_width (String.length s) s.

Definition TrimRightSpace (s : string) : string :=
  strrev (trim_left_with space_width_rev (String.length s) (strrev s)).

(** [strings.TrimSpace(s)]. *)
Definition TrimSpace (s : string) : string :=
  TrimRightSpace (TrimLeftSpace s).

(** Is byte [c] one of the bytes of [cutset]? *)
Fixpoint in_cutset (cutset : string) (c : ascii) : bool :=
  match cutset with
  | EmptyString => false
  | String d cutset' => Ascii.eqb c d || in_cutset cutset' c
  end.

Fixpoint TrimLeft (s cutset : string) : string :=
  match s with
  | EmptyString => EmptyString
  | String c s' => if in_cutset cutset c then TrimLeft s' cutset else s
  end.

Definition TrimRight (s cutset : string) : string :=
  strrev (TrimLeft (strrev s) cutset).

(** [strings.Trim(s, cutset)] for a cutset of ASCII characters (the
    program's only cutset is the double quote): leading and trailing bytes
    that occur in [cutset] are removed. *)
Definition Trim (s cutset : string) : string :=
  TrimRight (TrimLeft s cutset) cutset.

End GoStrings.
Import GoStrings.


(** ** Errors and results

    A Go [error] value: the causes the program can meet, and
    [fmt.Errorf("<context>: %w", err)] as [Wrap]. *)

Inductive error : Type :=
| ErrNotExist
| ErrPermission
| ErrSyntax
| ErrTooLong
| Wrap (context : string) (cause : error).

Inductive result (A : Type) : Type :=
| Ok (value : A)
| Err (err : error).
Arguments Ok {A} value.
Arguments Err {A} err.

Definition is_ok {A} (r : result A) : bool :=
  match r with Ok _ => true | Err _ => false end.

(** ** bufio.Scanner with the default split function [ScanLines] *)

Module Bufio.

(** [bufio.MaxScanTokenSize]: the scanner's buffer holds at most this many
    bytes, so a line of that many bytes or more (its terminator apart) never
    fits and the scan stops with [ErrTooLong]. *)
Definition MaxScanTokenSize : N := 65536.

(** Lines of [data] as [ScanLines] cuts them: each ends at a line feed, a
    last line needs none, and nothing follows a final line feed. *)
Fixpoint raw_lines (data : string) : list string :=
  match data with
  | EmptyString => []
  | String c data' =>
      if Ascii.eqb c LF then EmptyString :: raw_lines data'
      else match raw_lines data' with
           | [] => [str1 c]
           | l :: ls => String c l :: ls
           end
  end.

(** [dropCR]: one trailing carriage return is removed from a token. *)
Definition dropCR (data : string) : string :=
  if HasSuffix data (str1 CR) then slice data 0 (len data - 1) else data.

Definition fits (line : string) : bool :=
  (N.of_nat (String.length line) <? MaxScanTokenSize)%N.

(** The tokens successive [Scan()] calls deliver, and what [Err()] returns
    once [Scan()] has returned false. *)
Fixpoint deliver (raw : list string) : list string * option error :=
  match raw with
  | [] => ([], None)
  | l :: raw' =>
      if fits l then
        let '(tokens, e) := deliver raw' in (dropCR l :: tokens, e)
      else ([], Some ErrTooLong)
  end.

Definition Scan (data : string) : list string * option error :=
  deliver (raw_lines data).

End Bufio.

(** ** The file system

    A path names a regular file with its content, a file that exists but
    cannot be opened, or nothing. *)

Inductive file : Type :=
| Regular (content : string)
| NoAccess.

Abbreviation filesystem := (gmap string file).

(** [os.Open] followed by reading the whole file. *)
Definition os_Open (fs : filesystem) (path : string) : result string :=
  match fs !! path with
  | None => Err ErrNotExist
  | Some NoAccess => Err ErrPermission
  | Some (Regular content) => Ok content
  end.

(** [os.Stat] followed by [os.IsNotExist]. *)
Definition os_IsNotExist (fs : filesystem) (path : string) : bool :=
  match fs !! path with None => true | Some _ => false end.

(** [os.WriteFile]: the file is created or replaced; the output directory
    exists (main creates it first), so the write fails only on a file that
    cannot be opened. *)
Definition os_WriteFile (fs : filesystem) (path data : string)
  : filesystem * option error :=
  match fs !! path with
  | Some NoAccess => (fs, Some ErrPermission)
  | _ => (<[path := Regular data]> fs, None)
  end.

(** A Go [map[string]string] read at a key: the zero value when absent. *)
Definition map_get (m : gmap string string) (k : string) : string :=
  default EmptyString (m !! k).

(** ** The parsed definition (package emicklei/proto)

    The parser is an external collaborator.  Of its syntax tree the program
    uses the enums that [proto.Walk] visits, in visiting order, and of each
    the name and the elements, of which only [*proto.EnumField] counts. *)

Inductive EnumElement : Type :=
| EnumField (Name : string) (Integer : Z)
| OtherElement.

Record Enum : Type := mkEnum { Name : string; Elements : list EnumElement }.

Definition Proto : Type := list Enum.

(** ** parseProto *)

(** First pass, the [proto.WithEnum] handler: an enum whose name fails a
    non-empty prefix or suffix filter is left out; of the others every
    [*proto.EnumField] element gives its name, in order. *)
Definition enum_selected (enumPrefix enumSuffix : string) (e : Enum) : bool :=
  negb (negb (String.eqb enumPrefix EmptyString)
        && negb (HasPrefix (Name e) enumPrefix))
  && negb (negb (String.eqb enumSuffix EmptyString)
           && negb (HasSuffix (Name e) enumSuffix)).

Fixpoint field_names (elements : list EnumElement) : list string :=
  match elements with
  | [] => []
  | EnumField name _ :: rest => name :: field_names rest
  | OtherElement :: rest => field_names rest
  end.

Definition visit_enum (enumPrefix enumSuffix : string)
    (entries : list string) (e : Enum) : list string :=
  if enum_selected enumPrefix enumSuffix e
  then entries ++ field_names (Elements e)
  else entries.

Definition walk_enums (enumPrefix enumSuffix : string) (definition : Proto)
  : list string :=
  fold_left (visit_enum enumPrefix enumSuffix) definition [].

(** Second pass.  The marker of a validation-rule block, and the text
    between the first and the last double quote of a line, which exists
    when [idStart > 0 && idEnd > idStart]. *)
Definition cel_marker : string := "(buf.validate.field).cel".

Definition quoted (nextLine : string) : option string :=
  let idStart := Index nextLine dq + 1 in
  let idEnd := LastIndex nextLine dq in
  if (0 <? idStart) && (idStart <? idEnd)
  then Some (slice nextLine idStart idEnd)
  else None.

Definition closes_block (nextLine : string) : bool :=
  HasPrefix nextLine "}];" || HasPrefix nextLine "},".

(** The two nested loops share one scanner: [scan_outer] is the outer
    [for scanner.Scan()], [scan_block] the inner one with its locals [id]
    and [message]; [break] returns to the outer loop, and the end of the
    input ends both. *)
Fixpoint scan_outer (lines : list string)
    (entries : list string) (messages : gmap string string) {struct lines}
  : list string * gmap string string :=
  match lines with
  | [] => (entries, messages)
  | line :: rest =>
      if Contains line cel_marker
      then scan_block rest EmptyString EmptyString entries messages
      else scan_outer rest entries messages
  end
with scan_block (lines : list string) (id message : string)
    (entries : list string) (messages : gmap string string) {struct lines}
  : list string * gmap string string :=
  match lines with
  | [] => (entries, messages)
  | l :: rest =>
      let nextLine := TrimSpace l in
      if HasPrefix nextLine "id:" then
        match quoted nextLine with
        | Some id' => scan_block rest id' message (entries ++ [id']) messages
        | None => scan_block rest id message entries messages
        end
      else if HasPrefix nextLine "message:" then
        match quoted nextLine with
        | Some message' => scan_block rest id message' entries messages
        | None => scan_block rest id message entries messages
        end
      else if closes_block nextLine then
        scan_outer rest entries
          (if decide (id = EmptyString) then messages
           else <[id := message]> messages)
      else scan_block rest id message entries messages
  end.

Section Parsing.

(** [proto.NewParser(reader).Parse()] on the content of a file: the
    definition, or nothing when the content does not parse. *)
Variable Parse : string -> option Proto.

Definition parseProto (fs : filesystem) (filePath enumPrefix enumSuffix : string)
  : result (list string * gmap string string) :=
  match os_Open fs filePath with
  | Err e => Err (Wrap "open proto file" e)
  | Ok content =>
      match Parse content with
      | None => Err (Wrap "parse proto" ErrSyntax)
      | Some definition =>
          let entries := walk_enums enumPrefix enumSuffix definition in
          let '(lines, scanErr) := Bufio.Scan content in
          let '(entries, messages) := scan_outer lines entries ∅ in
          match scanErr with
          | Some e => Err (Wrap "read proto file" e)
          | None => Ok (entries, messages)
          end
      end
  end.

End Parsing.

(** ** The aggregation loop of main *)

Record aggregate : Type := mkAggregate {
  allEntries : list string;
  allMessages : gmap string string;
  seenEntries : gmap string bool
}.

Definition no_entries : aggregate := mkAggregate [] ∅ ∅.

Definition seen (a : aggregate) (entry : string) : bool :=
  default false (seenEntries a !! entry).

(** The body of [for _, entry := range entries]. *)
Definition add_entry (messages : gmap string string) (a : aggregate)
    (entry : string) : aggregate :=
  if seen a entry then a
  else mkAggregate (allEntries a ++ [entry])
                   (<[entry := map_get messages entry]> (allMessages a))
                   (<[entry := true]> (seenEntries a)).

(** The body of [for _, protoFile := range protoFiles], given what
    [parseProto] returned: a failure is logged and the loop continues. *)
Definition add_file (a : aggregate)
    (parsed : result (list string * gmap string string)) : aggregate :=
  match parsed with
  | Err _ => a
  | Ok (entries, messages) => fold_left (add_entry messages) entries a
  end.

Definition aggregate_results
    (results : list (result (list string * gmap string string))) : aggregate :=
  fold_left add_file results no_entries.

Definition collect (Parse : string -> option Proto) (fs : filesystem)
    (protoFiles : list string) (enumPrefix enumSuffix : string) : aggregate :=
  aggregate_results
    (map (fun protoFile => parseProto Parse fs protoFile enumPrefix enumSuffix)
         protoFiles).

(** ** loadExistingTOML *)

Definition is_header (line : string) : bool :=
  HasPrefix line "[" && HasSuffix line "]".

Definition other_prefix : string := "other = ".

(** The body of the scanning loop, on its local [currentKey] and the map
    [entries]: a header line sets the current key, a value line under a
    non-empty current key stores its text without the surrounding quotes,
    any other line is passed over. *)
Definition load_line (st : string * gmap string string) (l : string)
  : string * gmap string string :=
  let '(currentKey, entries) := st in
  let line := TrimSpace l in
  if is_header line then (slice line 1 (len line - 1), entries)
  else if HasPrefix line other_prefix then
    if decide (currentKey = EmptyString) then st
    else (currentKey,
          <[currentKey := Trim (slice_from line (len other_prefix)) dq]> entries)
  else st.

Definition load_loop (lines : list string) : string * gmap string string :=
  fold_left load_line lines (EmptyString, ∅).

Definition loadExistingTOML (fs : filesystem) (filePath : string)
  : result (gmap string string) :=
  if os_IsNotExist fs filePath then Ok ∅
  else
    match os_Open fs filePath with
    | Err e => Err (Wrap "open TOML file" e)
    | Ok content =>
        let '(lines, scanErr) := Bufio.Scan content in
        let entries := snd (load_loop lines) in
        match scanErr with
        | Some e => Err (Wrap "read TOML file" e)
        | None => Ok entries
        end
    end.

(** ** generateTOML *)

(** First loop: [entryMap] takes the existing value of each entry, or the
    empty string. *)
Definition merge_entry (existingEntries : gmap string string)
    (entryMap : gmap string string) (entry : string) : gmap string string :=
  match existingEntries !! entry with
  | Some val => <[entry := val]> entryMap
  | None => <[entry := EmptyString]> entryMap
  end.

(** [fmt.Sprintf("[%s]\nother = \"%s\"\n\n", entry, existingMessage)]. *)
Definition toml_block (entry existingMessage : string) : string :=
  "[" +:+ entry +:+ "]" +:+ nl +:+
  "other = " +:+ dq +:+ existingMessage +:+ dq +:+ nl +:+ nl.

(** Second loop: one block per entry, where an empty merged value gives
    way to [messages[entry]]. *)
Definition write_entry (entryMap messages : gmap string string)
    (buffer : string) (entry : string) : string :=
  let existingMessage := map_get entryMap entry in
  let existingMessage :=
    if decide (existingMessage = EmptyString) then map_get messages entry
    else existingMessage in
  buffer +:+ toml_block entry existingMessage.

Definition render (entries : list string)
    (messages existingEntries : gmap string string) : string :=
  let entryMap := fold_left (merge_entry existingEntries) entries ∅ in
  fold_left (write_entry entryMap messages) entries EmptyString.

(** The file system after the call, and the error returned, if any. *)
Definition generateTOML (fs : filesystem) (entries : list string)
    (messages : gmap string string) (filePath : string)
  : filesystem * option error :=
  match loadExistingTOML fs filePath with
  | Err e => (fs, Some (Wrap "load existing TOML" e))
  | Ok existingEntries =>
      match os_WriteFile fs filePath (render entries messages existingEntries) with
      | (fs', Some e) => (fs', Some (Wrap "write TOML file" e))
      | (fs', None) => (fs', None)
      end
  end.

(** ** The rest of main

    [main] from the list of discovered files on, given the values of its
    flags ([langList] is the -L value split at the commas): nothing is
    generated without entries, nor when the output directory cannot be
    made; otherwise one catalog per non-blank language code, and a
    language whose catalog fails is skipped.

    [os.MkdirAll] on the output directory belongs to the operating system
    and is a parameter [os_MkdirAll]: the file system it leaves, and the
    error it returns, if any. *)
Definition generate_lang (entries : list string)
    (messages : gmap string string) (outputDir : string)
    (fs : filesystem) (lang : string) : filesystem :=
  let lang := TrimSpace lang in
  if decide (lang = EmptyString) then fs
  else fst (generateTOML fs entries messages
              (outputDir +:+ "/" +:+ lang +:+ ".toml")).

Definition main (Parse : string -> option Proto)
    (os_MkdirAll : filesystem -> string -> filesystem * option error)
    (fs : filesystem)
    (protoFiles : list string) (enumPrefix enumSuffix outputDir : string)
    (langList : list string) : filesystem :=
  let a := collect Parse fs protoFiles enumPrefix enumSuffix in
  match allEntries a with
  | [] => fs
  | _ =>
      match os_MkdirAll fs outputDir with
      | (fs', Some _) => fs'
      | (fs', None) =>
          fold_left (generate_lang (allEntries a) (allMessages a) outputDir)
                    langList fs'
      end
  end.

(** ** Examples *)

Definition sample_parse (content : string) : option Proto :=
  if Contains content "syntax error" then None
  else if Contains content "enum FooError"
  then Some [mkEnum "FooError" [EnumField "NOT_FOUND" 0; OtherElement;
                                EnumField "DENIED" 1];
             mkEnum "FooStatus" [EnumField "ACTIVE" 0]]
  else Some [].

Definition lines_to_file (lines : list string) : string :=
  fold_right (fun l acc => l +:+ nl +:+ acc) EmptyString lines.

Definition sample_block : list string :=
  [ "  string name = 1 [(buf.validate.field).cel = {";
    "    id: " +:+ dq +:+ "invalid_input" +:+ dq;
    "    message: " +:+ dq +:+ "must not be empty" +:+ dq;
    "    expression: " +:+ dq +:+ "this != ''" +:+ dq;
    "  }];" ].


Definition sample_catalog : string :=
  "[invalid_input]" +:+ nl +:+ "other = " +:+ dq +:+ "ungueltig" +:+ dq +:+ nl
  +:+ nl +:+ "[STALE]" +:+ nl +:+ "other = " +:+ dq +:+ "alt" +:+ dq +:+ nl.


Definition sample_proto : string :=
  "enum FooError {" +:+ nl +:+ lines_to_file sample_block.

Definition sample_sources : filesystem :=
  {[ "api/a.proto" := Regular sample_proto;
     "api/broken.proto" := Regular "syntax error";
     "api/locked.proto" := NoAccess ]}.

(** An [os.MkdirAll] for the examples: every directory is there or can be
    made, except under the path locked; no file is touched. *)
Definition sample_mkdir (fs : filesystem) (dir : string)
  : filesystem * option error :=
  if HasPrefix dir "locked" then (fs, Some ErrPermission) else (fs, None).

Definition sample_results : list (result (list string * gmap string string)) :=
  [ Ok (["A"; "B"], {[ "B" := "first" ]});
    Err (Wrap "parse proto" ErrSyntax);
    Ok (["B"; "C"; "A"], {[ "B" := "second"; "C" := "third" ]}) ].

(** A rule left open at the end of the file. *)
Definition unclosed_block : list string :=
  [ "  string name = 1 [(buf.validate.field).cel = {";
    "    message: " +:+ dq +:+ "never recorded" +:+ dq;
    "    id: " +:+ dq +:+ "orphan" +:+ dq;
    "    expression: " +:+ dq +:+ "true" +:+ dq ].

Definition unclosed_sources : filesystem :=
  {[ "api/open.proto" := Regular (lines_to_file (sample_block ++ unclosed_block)) ]}.

Definition sample_fs : filesystem :=
  {[ "i18n/de.toml" := Regular sample_catalog ]}.

Definition sample_messages : gmap string string :=
  {[ "invalid_input" := "must not be empty" ]}.

(** A catalog whose only entry was left untranslated. *)
Definition untranslated_fs : filesystem :=
  {[ "i18n/en.toml" :=
       Regular ("[invalid_input]" +:+ nl +:+ "other = " +:+ dq +:+ dq +:+ nl +:+ nl) ]}.

(** A validation rule whose message ends in an escaped quote. *)
Definition quoting_block : list string :=
  [ "  string name = 1 [(buf.validate.field).cel = {";
    "    id: " +:+ dq +:+ "name_quoted" +:+ dq;
    "    message: " +:+ dq +:+ "must be \" +:+ dq +:+ "quoted\" +:+ dq +:+ dq;
    "  }];" ].

Definition quoting_messages : gmap string string :=
  {[ "name_quoted" := "must be \" +:+ dq +:+ "quoted\" +:+ dq ]}.

(** The catalog after a first and after a second run on that rule. *)
Definition quoting_first_run : string :=
  "[name_quoted]" +:+ nl +:+ "other = " +:+ dq
  +:+ "must be \" +:+ dq +:+ "quoted\" +:+ dq +:+ dq +:+ nl +:+ nl.

Definition quoting_second_run : string :=
  "[name_quoted]" +:+ nl +:+ "other = " +:+ dq
  +:+ "must be \" +:+ dq +:+ "quoted\" +:+ dq +:+ nl +:+ nl.

(** A catalog in which a header comes twice and a value line is repeated. *)
Definition repeated_catalog : list string :=
  [ "[a]"; "other = " +:+ dq +:+ "one" +:+ dq;
    "[b]"; "other = " +:+ dq +:+ "x" +:+ dq;
    "[a]"; "other = " +:+ dq +:+ "two" +:+ dq;
    "other = " +:+ dq +:+ "three" +:+ dq;
    "[c]" ].

(** ** Vocabulary of the statements *)

(** Does byte [c] occur in [s]? *)
Fixpoint has_byte (c : ascii) (s : string) : bool :=
  match s with
  | EmptyString => false
  | String d s' => Ascii.eqb d c || has_byte c s'
  end.

(** An ASCII byte other than the six ASCII spaces: never part of a space
    rune. *)
Definition plain_byte (c : ascii) : bool :=
  (N_of_ascii c <? 128)%N && negb (ascii_space c).

(** A text that neither begins nor ends with a double quote. *)
Definition bare (s : string) : Prop :=
  HasPrefix s dq = false /\ HasSuffix s dq = false.

(** The text of a catalog with the given (Key, TranslatedText) entries:
    one block per entry, in order. *)
Definition catalog_text (blocks : list (string * string)) : string :=
  fold_right (fun b rest => toml_block (fst b) (snd b) +:+ rest)
             EmptyString blocks.

(** The Keys of a list, each once, in the order of their first
    occurrence. *)
Fixpoint first_seen (keys : list string) : list string :=
  match keys with
  | [] => []
  | k :: keys' => k :: filter (fun k' => k' <> k) (first_seen keys')
  end.

(** What one file contributes: its Keys, and each of them paired with the
    Default Messages of that file. *)
Definition entries_of (parsed : result (list string * gmap string string))
  : list string :=
  match parsed with
  | Ok (entries, _) => entries
  | Err _ => []
  end.

Definition tagged_entries (parsed : result (list string * gmap string string))
  : list (string * gmap string string) :=
  match parsed with
  | Ok (entries, messages) => map (fun k => (k, messages)) entries
  | Err _ => []
  end.

(** The loop body on one occurrence of a Key. *)
Definition add_tagged (a : aggregate) (occ : string * gmap string string)
  : aggregate :=
  add_entry (snd occ) a (fst occ).

(** The Default Message that comes with the first occurrence of [k]. *)
Fixpoint first_message (occurrences : list (string * gmap string string))
    (k : string) : option string :=
  match occurrences with
  | [] => None
  | (k', messages) :: rest =>
      if decide (k' = k) then Some (map_get messages k)
      else first_message rest k
  end.

(** A name filter as the specification words it: an empty filter is always
    satisfied. *)
Definition filter_satisfied (test : string -> string -> bool)
    (flt name : string) : bool :=
  if decide (flt = EmptyString) then true else test name flt.

Definition satisfies_filters (enumPrefix enumSuffix : string) (e : Enum) : bool :=
  filter_satisfied HasPrefix enumPrefix (Name e)
  && filter_satisfied HasSuffix enumSuffix (Name e).

(** Is the raw-text scan inside a validation-rule block once it has read
    [lines], having started inside one or not? *)
Fixpoint in_block (inside : bool) (lines : list string) : bool :=
  match lines with
  | [] => inside
  | l :: rest =>
      if inside then
        let nextLine := TrimSpace l in
        if HasPrefix nextLine "id:" then in_block true rest
        else if HasPrefix nextLine "message:" then in_block true rest
        else if closes_block nextLine then in_block false rest
        else in_block true rest
      else in_block (Contains l cel_marker) rest
  end.

(** A line of a block that does not close it. *)
Definition keeps_open (l : string) : Prop :=
  closes_block (TrimSpace l) = false.

(** The entries the reader's loop finds in a catalog text. *)
Definition catalog_entries (content : string) : gmap string string :=
  snd (load_loop (map Bufio.dropCR (Bufio.raw_lines content))).

(** The reader's [currentKey] once it has scanned [lines]: the key of the
    last header line among them, empty when there is none. *)
Definition current_key (lines : list string) : string :=
  fst (load_loop lines).

(** A line the reader takes for a value line, and the text it stores. *)
Definition is_value_line (l : string) : bool :=
  negb (is_header (TrimSpace l)) && HasPrefix (TrimSpace l) other_prefix.

Definition value_of_line (l : string) : string :=
  Trim (slice_from (TrimSpace l) (len other_prefix)) dq.

(** The three lines of a block. *)
Definition block_lines (entry text : string) : list string :=
  [ "[" +:+ entry +:+ "]"; other_prefix +:+ dq +:+ text +:+ dq; EmptyString ].

(** The TranslatedText of a Key as the specification words it: the
    existing value if present and non-empty; otherwise the Default Message
    if one exists for that Key; otherwise the empty string. *)
Definition default_message (messages : gmap string string) (k : string)
  : string :=
  match messages !! k with
  | Some m => m
  | None => EmptyString
  end.

Definition spec_text (messages existing : gmap string string) (k : string)
  : string :=
  match existing !! k with
  | Some v => if decide (v = EmptyString) then default_message messages k else v
  | None => default_message messages k
  end.

(** Every entry a catalog is read into has a non-empty key and a text that
    fits on one line and carries no quote at either end. *)
Definition well_read (m : gmap string string) : Prop :=
  forall k v, m !! k = Some v ->
    k <> EmptyString /\ has_byte LF v = false /\ bare v.

(** ** Further vocabulary *)

(** The key a header line names. *)
Definition header_key (l : string) : string :=
  slice (TrimSpace l) 1 (len (TrimSpace l) - 1).

(** The lines of a file as a scanner delivers them when none is
    over-long. *)
Definition scanned_lines (content : string) : list string :=
  map Bufio.dropCR (Bufio.raw_lines content).

(** A text whose line in a catalog fits the scanner's buffer, [extra]
    being the bytes the writer puts around it. *)
Definition fits_with (extra : N) (text : string) : Prop :=
  (N.of_nat (String.length text) + extra < Bufio.MaxScanTokenSize)%N.

(** A catalog holding an over-long line. *)
Definition over_long_line : string :=
  N.iter Bufio.MaxScanTokenSize (String "a"%char) EmptyString.

Definition over_long_catalog : filesystem :=
  {[ "i18n/en.toml" :=
       Regular ("[k]" +:+ nl +:+ "other = " +:+ over_long_line +:+ nl) ]}.

(** What the raw-text scan may append as a Key: a text that is not empty
    and holds no line feed. *)
Definition scanned_key (i : string) : Prop :=
  i <> EmptyString /\ has_byte LF i = false.

(** The Keys the scan has appended and the messages it has recorded. *)
Definition scan_good (ids : list string) (messages : gmap string string)
  : Prop :=
  (forall i, i ∈ ids -> scanned_key i)
  /\ (forall k m, messages !! k = Some m ->
        k ∈ ids /\ has_byte LF m = false).

(** A file that lists Keys seen before, with other Default Messages. *)
Definition late_result : result (list string * gmap string string) :=
  Ok (["B"; "A"], {[ "A" := "late"; "B" := "late too" ]}).

(** The path of a language's catalog, as main builds it:
    [fmt.Sprintf("%s/%s.toml", *outputDir, lang)]. *)
Definition catalog_path (outputDir lang : string) : string :=
  outputDir +:+ "/" +:+ lang +:+ ".toml".

(** The sample sources beside a catalog that cannot be opened. *)
Definition locked_run : filesystem :=
  <["i18n/en.toml" := NoAccess]> sample_sources.

(** ** The earlier version of the program

    The source file that precedes main.go: no name filters and no Default
    Messages.  Its [loadExistingTOML] is the same text as the later one. *)

Module Earlier.

(** First pass: every enum counts. *)
Definition visit_enum (entries : list string) (e : Enum) : list string :=
  entries ++ field_names (Elements e).

Definition walk_enums (definition : Proto) : list string :=
  fold_left visit_enum definition [].

(** Second pass: after a marker line the inner loop looks for the next
    line that begins with id:, takes its quoted value if it has one, and
    breaks. *)
Fixpoint scan_outer (lines : list string) (entries : list string)
    {struct lines} : list string :=
  match lines with
  | [] => entries
  | line :: rest =>
      if Contains line cel_marker then scan_id rest entries
      else scan_outer rest entries
  end
with scan_id (lines : list string) (entries : list string)
    {struct lines} : list string :=
  match lines with
  | [] => entries
  | l :: rest =>
      let nextLine := TrimSpace l in
      if HasPrefix nextLine "id:" then
        match quoted nextLine with
        | Some id => scan_outer rest (entries ++ [id])
        | None => scan_outer rest entries
        end
      else scan_id rest entries
  end.

Definition parseProto (Parse : string -> option Proto) (fs : filesystem)
    (filePath : string) : result (list string) :=
  match os_Open fs filePath with
  | Err e => Err (Wrap "open proto file" e)
  | Ok content =>
      match Parse content with
      | None => Err (Wrap "parse proto" ErrSyntax)
      | Some definition =>
          let entries := walk_enums definition in
          let '(lines, scanErr) := Bufio.Scan content in
          let entries := scan_outer lines entries in
          match scanErr with
          | Some e => Err (Wrap "read proto file" e)
          | None => Ok entries
          end
      end
  end.

(** The buffer holds [entryMap[entry]] as it is. *)
Definition render (entries : list string) (existingEntries : gmap string string)
  : string :=
  let entryMap := fold_left (merge_entry existingEntries) entries ∅ in
  fold_left (fun buffer entry =>
               buffer +:+ toml_block entry (map_get entryMap entry))
            entries EmptyString.

Definition generateTOML (fs : filesystem) (entries : list string)
    (filePath : string) : filesystem * option error :=
  match loadExistingTOML fs filePath with
  | Err e => (fs, Some (Wrap "load existing TOML" e))
  | Ok existingEntries =>
      match os_WriteFile fs filePath (render entries existingEntries) with
      | (fs', Some e) => (fs', Some (Wrap "write TOML file" e))
      | (fs', None) => (fs', None)
      end
  end.

(** The loop over the language codes: the first catalog that fails ends
    main. *)
Fixpoint generate_all (fs : filesystem) (entries : list string)
    (outputDir : string) (languages : list string) : filesystem :=
  match languages with
  | [] => fs
  | v :: rest =>
      match generateTOML fs entries (outputDir +:+ "/" +:+ v +:+ ".toml") with
      | (fs', Some _) => fs'
      | (fs', None) => generate_all fs' entries outputDir rest
      end
  end.

(** [main] for one .proto file, [languages] being the -L value split at
    the commas; [os_MkdirAll] as in the later version. *)
Definition main (Parse : string -> option Proto)
    (os_MkdirAll : filesystem -> string -> filesystem * option error)
    (fs : filesystem)
    (protoFile outputDir : string) (languages : list string) : filesystem :=
  match parseProto Parse fs protoFile with
  | Err _ => fs
  | Ok entries =>
      match os_MkdirAll fs outputDir with
      | (fs', Some _) => fs'
      | (fs', None) => generate_all fs' entries outputDir languages
      end
  end.

End Earlier.

(** The number of lines that hold the marker. *)
Definition marker_lines (lines : list string) : nat :=
  length (filter (fun l => Contains l cel_marker = true) lines).







(** * Facts about the string functions *)

Section StringFacts.

Lemma append_cons c s t : String c s +:+ t = String c (s +:+ t).
Proof. reflexivity. Qed.

Lemma append_nil_l t : EmptyString +:+ t = t.
Proof. reflexivity. Qed.

Lemma append_nil_r s : s +:+ EmptyString = s.
Proof. induction s as [|c s IH]; [reflexivity|]. by rewrite append_cons, IH. Qed.

Lemma append_assoc s t u : (s +:+ t) +:+ u = s +:+ (t +:+ u).
Proof. induction s as [|c s IH]; [reflexivity|]. by rewrite !append_cons, IH. Qed.

Lemma length_append s t :
  String.length (s +:+ t) = (String.length s + String.length t)%nat.
Proof. induction s as [|c s IH]; [reflexivity|]. rewrite append_cons. simpl. by rewrite IH. Qed.

Lemma strrev_app s t : strrev (s +:+ t) = strrev t +:+ strrev s.
Proof.
  induction s as [|c s IH].
  - by rewrite append_nil_l, append_nil_r.
  - rewrite append_cons. simpl. by rewrite IH, append_assoc.
Qed.

Lemma strrev_involutive s : strrev (strrev s) = s.
Proof.
  induction s as [|c s IH]; [reflexivity|].
  simpl. rewrite strrev_app, IH. reflexivity.
Qed.

Lemma strrev_length s : String.length (strrev s) = String.length s.
Proof.
  induction s as [|c s IH]; [reflexivity|].
  simpl. rewrite length_append, IH. simpl. lia.
Qed.

Lemma strrev_snoc s c : strrev (s +:+ str1 c) = String c (strrev s).
Proof. by rewrite strrev_app. Qed.

Lemma HasPrefix_app p s : HasPrefix (p +:+ s) p = true.
Proof.
  induction p as [|c p IH]; [reflexivity|].
  rewrite append_cons. simpl. by rewrite Ascii.eqb_refl.
Qed.

Lemma HasSuffix_app s p : HasSuffix (s +:+ p) p = true.
Proof. unfold HasSuffix. rewrite strrev_app. apply HasPrefix_app. Qed.

Lemma HasPrefix_nil_r s : HasPrefix s EmptyString = true.
Proof. by destruct s. Qed.

(** *** Bytes that do not occur *)

Lemma has_byte_app c s t : has_byte c (s +:+ t) = has_byte c s || has_byte c t.
Proof.
  induction s as [|d s IH]; [reflexivity|].
  rewrite append_cons. simpl. rewrite IH. by rewrite orb_assoc.
Qed.

Lemma has_byte_strrev c s : has_byte c (strrev s) = has_byte c s.
Proof.
  induction s as [|d s IH]; [reflexivity|].
  simpl. rewrite has_byte_app, IH. simpl. rewrite orb_false_r. apply orb_comm.
Qed.

Lemma has_byte_drop c n s :
  has_byte c s = false -> has_byte c (drop_bytes n s) = false.
Proof.
  revert s. induction n as [|n IH]; intros [|d s] H; simpl; try done.
  apply IH. simpl in H. by apply orb_false_iff in H as [_ H].
Qed.

Lemma has_byte_substring c n m s :
  has_byte c s = false -> has_byte c (String.substring n m s) = false.
Proof.
  revert n m. induction s as [|d s IH]; intros n m H.
  - by destruct n, m.
  - simpl in H. apply orb_false_iff in H as [Hd Hs].
    destruct n as [|n]; simpl.
    + destruct m as [|m]; [done|]. simpl. rewrite Hd. by apply IH.
    + by apply IH.
Qed.

Lemma has_byte_slice c s lo hi :
  has_byte c s = false -> has_byte c (slice s lo hi) = false.
Proof. apply has_byte_substring. Qed.

Lemma has_byte_trim_left_with c w fuel s :
  has_byte c s = false -> has_byte c (trim_left_with w fuel s) = false.
Proof.
  revert s. induction fuel as [|fuel IH]; intros s H; simpl; [done|].
  destruct (w s) as [|n]; [done|]. apply IH.
  by apply (has_byte_drop c (S n)).
Qed.

Lemma has_byte_TrimSpace c s :
  has_byte c s = false -> has_byte c (TrimSpace s) = false.
Proof.
  intros H. unfold TrimSpace, TrimRightSpace, TrimLeftSpace.
  rewrite has_byte_strrev. apply has_byte_trim_left_with.
  rewrite has_byte_strrev. by apply has_byte_trim_left_with.
Qed.

Lemma has_byte_TrimLeft c s cutset :
  has_byte c s = false -> has_byte c (TrimLeft s cutset) = false.
Proof.
  induction s as [|d s IH]; intros H; simpl; [done|].
  destruct (in_cutset cutset d); [|done].
  apply IH. simpl in H. by apply orb_false_iff in H as [_ H].
Qed.

Lemma has_byte_Trim c s cutset :
  has_byte c s = false -> has_byte c (Trim s cutset) = false.
Proof.
  intros H. unfold Trim, TrimRight.
  rewrite has_byte_strrev. apply has_byte_TrimLeft.
  rewrite has_byte_strrev. by apply has_byte_TrimLeft.
Qed.

(** *** Trimming *)

Lemma trim_left_with_stop w fuel s :
  w s = 0%nat -> trim_left_with w fuel s = s.
Proof. intros H. destruct fuel; simpl; [done|]. by rewrite H. Qed.

(** The byte length is fuel enough: what is left begins with no space. *)
Lemma trim_left_with_done w fuel s :
  w EmptyString = 0%nat -> (String.length s <= fuel)%nat ->
  w (trim_left_with w fuel s) = 0%nat.
Proof.
  intros Hw. revert s. induction fuel as [|fuel IH]; intros s Hlen.
  - destruct s; [done|simpl in Hlen; lia].
  - simpl. destruct (w s) as [|n] eqn:E; [done|].
    apply IH. destruct s as [|c s]; [by rewrite Hw in E|].
    simpl in Hlen. clear -Hlen. revert s Hlen.
    induction n as [|n IHn]; intros s Hlen; simpl; [lia|].
    destruct s as [|d s]; simpl in *; [lia|].
    etrans; [apply IHn; lia|lia].
Qed.

Lemma TrimSpace_trimmed s :
  space_width (TrimLeftSpace s) = 0%nat
  /\ space_width_rev (strrev (TrimRightSpace s)) = 0%nat.
Proof.
  split.
  - by apply trim_left_with_done.
  - unfold TrimRightSpace. rewrite strrev_involutive.
    apply trim_left_with_done; [done|]. by rewrite strrev_length.
Qed.

Lemma TrimSpace_id s :
  space_width s = 0%nat -> space_width_rev (strrev s) = 0%nat ->
  TrimSpace s = s.
Proof.
  intros Hl Hr. unfold TrimSpace, TrimLeftSpace, TrimRightSpace.
  rewrite (trim_left_with_stop _ _ s Hl), (trim_left_with_stop _ _ _ Hr).
  apply strrev_involutive.
Qed.

Lemma space_width_plain a r :
  plain_byte a = true -> space_width (String a r) = 0%nat.
Proof.
  unfold plain_byte. intros [Hlt Hsp%negb_true_iff]%andb_true_iff.
  unfold space_width. by rewrite Hsp, Hlt.
Qed.

Lemma space_width_rev_plain a r :
  plain_byte a = true -> space_width_rev (String a r) = 0%nat.
Proof.
  unfold plain_byte. intros [Hlt Hsp%negb_true_iff]%andb_true_iff.
  unfold space_width_rev. by rewrite Hsp, Hlt.
Qed.

(** A line between two plain bytes is its own trimmed form. *)
Lemma TrimSpace_delimited a s b :
  plain_byte a = true -> plain_byte b = true ->
  TrimSpace (String a (s +:+ str1 b)) = String a (s +:+ str1 b).
Proof.
  intros Ha Hb. apply TrimSpace_id.
  - by apply space_width_plain.
  - rewrite <- append_cons, strrev_snoc. by apply space_width_rev_plain.
Qed.

Lemma HasPrefix_dq_cons c s :
  HasPrefix (String c s) dq = Ascii.eqb c DQ.
Proof. simpl. by destruct (Ascii.eqb c DQ). Qed.

Lemma TrimLeft_bare s : HasPrefix s dq = false -> TrimLeft s dq = s.
Proof.
  destruct s as [|c s]; [done|]. rewrite HasPrefix_dq_cons. intros H.
  simpl. by rewrite H.
Qed.

Lemma TrimLeft_no_prefix s : HasPrefix (TrimLeft s dq) dq = false.
Proof.
  induction s as [|c s IH]; [done|]. simpl.
  destruct (Ascii.eqb c DQ) eqn:E; simpl; [done|].
  by rewrite E.
Qed.

Lemma TrimLeft_split s cutset : exists q, s = q +:+ TrimLeft s cutset.
Proof.
  induction s as [|c s [q IH]]; [by exists EmptyString|]. simpl.
  destruct (in_cutset cutset c).
  - exists (String c q). rewrite append_cons. by f_equal.
  - by exists EmptyString.
Qed.

Lemma TrimRight_split s cutset : exists q, s = TrimRight s cutset +:+ q.
Proof.
  destruct (TrimLeft_split (strrev s) cutset) as [q Hq].
  exists (strrev q). unfold TrimRight.
  rewrite <- strrev_app, <- Hq. by rewrite strrev_involutive.
Qed.

Lemma TrimRight_bare s : HasSuffix s dq = false -> TrimRight s dq = s.
Proof.
  intros H. unfold TrimRight. rewrite TrimLeft_bare by exact H.
  apply strrev_involutive.
Qed.

Lemma Trim_bare s : bare s -> Trim s dq = s.
Proof.
  intros [Hp Hs]. unfold Trim. rewrite (TrimLeft_bare _ Hp).
  by apply TrimRight_bare.
Qed.

Lemma bare_Trim s : bare (Trim s dq).
Proof.
  unfold Trim. set (t := TrimLeft s dq).
  assert (Ht : HasPrefix t dq = false) by apply TrimLeft_no_prefix.
  split.
  - destruct (TrimRight_split t dq) as [q Hq].
    destruct (TrimRight t dq) as [|c u] eqn:E; [done|].
    rewrite Hq, append_cons, HasPrefix_dq_cons in Ht.
    by rewrite HasPrefix_dq_cons.
  - unfold HasSuffix, TrimRight. rewrite strrev_involutive.
    apply TrimLeft_no_prefix.
Qed.

Lemma TrimLeft_snoc v :
  TrimLeft (v +:+ dq) dq =
  match TrimLeft v dq with
  | EmptyString => EmptyString
  | t => t +:+ dq
  end.
Proof.
  induction v as [|c v IH]; [done|].
  rewrite append_cons. simpl. destruct (Ascii.eqb c DQ); simpl; [exact IH|].
  by rewrite append_cons.
Qed.

Lemma TrimRight_snoc t : TrimRight (t +:+ dq) dq = TrimRight t dq.
Proof. unfold TrimRight, dq. by rewrite strrev_snoc. Qed.

(** The value line of a block is read back as the text it was written
    from, less the quotes at its ends. *)
Lemma Trim_quoted v : Trim (dq +:+ v +:+ dq) dq = Trim v dq.
Proof.
  unfold Trim. change (TrimLeft (dq +:+ v +:+ dq) dq) with (TrimLeft (v +:+ dq) dq).
  rewrite TrimLeft_snoc. destruct (TrimLeft v dq) as [|c t]; [done|].
  apply TrimRight_snoc.
Qed.

(** *** Slices *)

Lemma substring_prefix s t :
  String.substring 0 (String.length s) (s +:+ t) = s.
Proof.
  induction s as [|c s IH]; [by destruct t|].
  rewrite append_cons. simpl. by rewrite IH.
Qed.

Lemma substring_all s : String.substring 0 (String.length s) s = s.
Proof. rewrite <- (append_nil_r s) at 2. apply substring_prefix. Qed.

Lemma slice_brackets k :
  slice ("[" +:+ k +:+ "]") 1 (len ("[" +:+ k +:+ "]") - 1) = k.
Proof.
  unfold slice, len. rewrite append_cons, append_nil_l.
  cbn [String.length]. rewrite length_append. cbn [String.length].
  replace (Z.to_nat (Z.of_nat (S (String.length k + 1)) - 1 - 1))
    with (String.length k) by lia.
  change (Z.to_nat 1) with 1%nat. cbn [String.substring].
  apply substring_prefix.
Qed.

Lemma slice_from_other x :
  slice_from (other_prefix +:+ x) (len other_prefix) = x.
Proof.
  unfold slice_from, slice, len. rewrite length_append.
  replace (Z.to_nat (Z.of_nat (String.length other_prefix + String.length x)
                     - Z.of_nat (String.length other_prefix)))
    with (String.length x) by lia.
  rewrite Nat2Z.id. unfold other_prefix. rewrite !append_cons, append_nil_l.
  cbn [String.length String.substring]. apply substring_all.
Qed.

(** *** Lines *)

Lemma raw_lines_line l rest :
  has_byte LF l = false ->
  Bufio.raw_lines (l +:+ nl +:+ rest) = l :: Bufio.raw_lines rest.
Proof.
  induction l as [|c l IH]; intros H.
  - reflexivity.
  - simpl in H. apply orb_false_iff in H as [Hc Hl].
    rewrite append_cons. cbn [Bufio.raw_lines]. rewrite Hc, (IH Hl). done.
Qed.

Lemma raw_lines_no_lf data :
  Forall (fun l => has_byte LF l = false) (Bufio.raw_lines data).
Proof.
  induction data as [|c data IH]; cbn [Bufio.raw_lines]; [constructor|].
  destruct (Ascii.eqb c LF) eqn:E; [by constructor|].
  destruct (Bufio.raw_lines data) as [|l ls].
  - constructor; [|constructor]. simpl. by rewrite E.
  - inversion IH; subst. constructor; [|done]. simpl. by rewrite E.
Qed.

Lemma dropCR_id l : HasSuffix l (str1 CR) = false -> Bufio.dropCR l = l.
Proof. intros H. unfold Bufio.dropCR. by rewrite H. Qed.

Lemma has_byte_dropCR c l :
  has_byte c l = false -> has_byte c (Bufio.dropCR l) = false.
Proof.
  intros H. unfold Bufio.dropCR. destruct (HasSuffix l (str1 CR)); [|done].
  by apply has_byte_slice.
Qed.

Lemma deliver_ok raw lines :
  Bufio.deliver raw = (lines, None) -> lines = map Bufio.dropCR raw.
Proof.
  revert lines. induction raw as [|l raw IH]; intros lines; simpl.
  - by intros [= <-].
  - destruct (Bufio.fits l); [|done].
    destruct (Bufio.deliver raw) as [tokens e]. intros [= <- ->].
    by rewrite (IH tokens).
Qed.

Lemma deliver_sub raw lines e :
  Bufio.deliver raw = (lines, e) ->
  forall l, l ∈ lines -> exists r, r ∈ raw /\ l = Bufio.dropCR r.
Proof.
  revert lines e. induction raw as [|r raw IH]; intros lines e; simpl.
  - intros [= <- _] l Hl. by apply elem_of_nil in Hl.
  - destruct (Bufio.fits r).
    + destruct (Bufio.deliver raw) as [tokens e'] eqn:E. intros [= <- _] l Hl.
      apply elem_of_cons in Hl as [->|Hl].
      * exists r. split; [left|done].
      * destruct (IH tokens e' eq_refl l Hl) as (r' & ? & ?).
        exists r'. split; [by right|done].
    + intros [= <- _] l Hl. by apply elem_of_nil in Hl.
Qed.

Lemma Scan_no_lf data lines e :
  Bufio.Scan data = (lines, e) ->
  forall l, l ∈ lines -> has_byte LF l = false.
Proof.
  intros H l Hl. destruct (deliver_sub _ _ _ H l Hl) as (r & Hr & ->).
  apply has_byte_dropCR.
  pose proof (raw_lines_no_lf data) as HF.
  rewrite Forall_forall in HF. by apply HF.
Qed.

End StringFacts.

(** What keeps a text on one line. *)
Create HintDb one_line discriminated.
#[global] Hint Resolve has_byte_drop has_byte_substring has_byte_slice
  has_byte_trim_left_with has_byte_TrimSpace has_byte_TrimLeft has_byte_Trim
  has_byte_dropCR : one_line.

(** * Facts about the catalog reader and writer *)

Section CatalogFacts.

Lemma merge_entry_insert existing entryMap entry :
  merge_entry existing entryMap entry
  = <[entry := map_get existing entry]> entryMap.
Proof. unfold merge_entry, map_get. by destruct (existing !! entry). Qed.

Lemma merged_lookup existing entries entryMap k :
  fold_left (merge_entry existing) entries entryMap !! k
  = if decide (k ∈ entries) then Some (map_get existing k) else entryMap !! k.
Proof.
  revert entryMap. induction entries as [|e es IH]; intros entryMap; simpl.
  - destruct (decide (k ∈ [])) as [H|H]; [by apply elem_of_nil in H|done].
  - rewrite IH, merge_entry_insert.
    destruct (decide (k ∈ es)) as [Hes|Hes].
    + rewrite decide_True; [done|by right].
    + destruct (decide (e = k)) as [->|Hne].
      * rewrite lookup_insert_eq, decide_True; [done|by left].
      * rewrite lookup_insert_ne by done.
        rewrite decide_False; [done|].
        intros [->|?]%elem_of_cons; done.
Qed.

Lemma written_text entryMap messages entries buffer :
  fold_left (write_entry entryMap messages) entries buffer
  = buffer +:+
    catalog_text
      (map (fun k => (k, if decide (map_get entryMap k = EmptyString)
                         then map_get messages k else map_get entryMap k))
           entries).
Proof.
  revert buffer. induction entries as [|e es IH]; intros buffer; simpl.
  - by rewrite append_nil_r.
  - rewrite IH. unfold write_entry. by rewrite append_assoc.
Qed.

(** What [generateTOML] puts in its buffer: a block per entry, with the
    text the specification describes. *)
Lemma render_spec entries messages existing :
  render entries messages existing
  = catalog_text (map (fun k => (k, spec_text messages existing k)) entries).
Proof.
  unfold render. rewrite written_text, append_nil_l. f_equal.
  apply map_ext_in. intros k Hk%(proj2 (list_elem_of_In _ _)). f_equal.
  set (entryMap := fold_left (merge_entry existing) entries ∅).
  assert (Hget : map_get entryMap k = map_get existing k).
  { unfold map_get at 1, entryMap. rewrite merged_lookup.
    by destruct (decide (k ∈ entries)). }
  rewrite Hget. unfold spec_text, default_message, map_get.
  destruct (existing !! k) as [v|]; simpl.
  - by destruct (decide (v = EmptyString)).
  - destruct (decide (EmptyString = EmptyString)); [|done].
    by destruct (messages !! k).
Qed.

Lemma load_ok_readable fs path existing :
  loadExistingTOML fs path = Ok existing -> fs !! path <> Some NoAccess.
Proof.
  unfold loadExistingTOML, os_IsNotExist, os_Open. intros H E.
  by rewrite E in H.
Qed.

Lemma generateTOML_ok fs entries messages path existing :
  loadExistingTOML fs path = Ok existing ->
  generateTOML fs entries messages path
  = (<[path := Regular (render entries messages existing)]> fs, None).
Proof.
  intros H. pose proof (load_ok_readable _ _ _ H) as Hacc.
  unfold generateTOML, os_WriteFile. rewrite H.
  destruct (fs !! path) as [[c|]|]; done.
Qed.

Lemma generateTOML_failed fs entries messages path e :
  loadExistingTOML fs path = Err e ->
  fst (generateTOML fs entries messages path) = fs.
Proof. intros H. unfold generateTOML. by rewrite H. Qed.

Lemma load_line_well_read st l :
  has_byte LF l = false -> well_read (snd st) -> well_read (snd (load_line st l)).
Proof.
  destruct st as [key m]. intros Hl Hm. unfold load_line.
  destruct (is_header (TrimSpace l)); [done|].
  destruct (HasPrefix (TrimSpace l) other_prefix); [|done].
  destruct (decide (key = EmptyString)) as [|Hkey]; [done|]. simpl.
  intros k v. destruct (decide (key = k)) as [<-|Hne].
  - rewrite lookup_insert_eq. intros [= <-]. split; [done|]. split.
    + unfold slice_from. auto with one_line.
    + apply bare_Trim.
  - rewrite lookup_insert_ne by done. apply Hm.
Qed.

Lemma load_lines_well_read lines st :
  (forall l, l ∈ lines -> has_byte LF l = false) ->
  well_read (snd st) -> well_read (snd (fold_left load_line lines st)).
Proof.
  revert st. induction lines as [|l lines IH]; intros st Hl Hst; [done|].
  simpl. apply IH.
  - intros l' ?. apply Hl. by right.
  - apply load_line_well_read; [apply Hl; by left|done].
Qed.

Lemma loadExistingTOML_well_read fs path existing :
  loadExistingTOML fs path = Ok existing -> well_read existing.
Proof.
  unfold loadExistingTOML. destruct (os_IsNotExist fs path).
  - intros [= <-] k v. by rewrite lookup_empty.
  - destruct (os_Open fs path) as [content|]; [|done].
    destruct (Bufio.Scan content) as [lines scanErr] eqn:E.
    destruct scanErr; [done|]. intros [= <-].
    apply load_lines_well_read.
    + by apply (Scan_no_lf _ _ _ E).
    + intros k v. simpl. by rewrite lookup_empty.
Qed.

(** *** Reading back what was written *)

Lemma toml_block_lines k t rest :
  toml_block k t +:+ rest
  = ("[" +:+ k +:+ "]") +:+ nl +:+
    ((other_prefix +:+ dq +:+ t +:+ dq) +:+ nl +:+ (EmptyString +:+ nl +:+ rest)).
Proof. unfold toml_block, other_prefix. by rewrite !append_assoc. Qed.

Lemma raw_lines_catalog (texts : string -> string) entries :
  (forall k, k ∈ entries ->
     has_byte LF k = false /\ has_byte LF (texts k) = false) ->
  Bufio.raw_lines (catalog_text (map (fun k => (k, texts k)) entries))
  = flat_map (fun k => block_lines k (texts k)) entries.
Proof.
  induction entries as [|e es IH]; intros H; [done|].
  destruct (H e) as [He Ht]; [by left|].
  cbn [map catalog_text fold_right flat_map fst snd].
  rewrite toml_block_lines.
  rewrite !raw_lines_line.
  - fold (catalog_text (map (fun k => (k, texts k)) es)).
    rewrite IH; [done|]. intros k ?. apply H. by right.
  - done.
  - unfold other_prefix. rewrite !has_byte_app, Ht. done.
  - rewrite !has_byte_app, He. done.
Qed.

Lemma dropCR_block_lines k t :
  map Bufio.dropCR (block_lines k t) = block_lines k t.
Proof.
  unfold block_lines. cbn [map]. rewrite !dropCR_id; [done|done| |].
  - unfold HasSuffix. by rewrite !strrev_app.
  - unfold HasSuffix. by rewrite !strrev_app.
Qed.

Lemma load_header k key m : load_line (key, m) ("[" +:+ k +:+ "]") = (k, m).
Proof.
  unfold load_line.
  assert (Hline : TrimSpace ("[" +:+ k +:+ "]") = "[" +:+ k +:+ "]")
    by exact (TrimSpace_delimited "[" k "]" eq_refl eq_refl).
  rewrite Hline. unfold is_header. rewrite HasPrefix_app.
  rewrite <- append_assoc, HasSuffix_app. cbn [andb].
  rewrite append_assoc. by rewrite slice_brackets.
Qed.

Lemma load_value t key m :
  load_line (key, m) (other_prefix +:+ dq +:+ t +:+ dq)
  = (key, if decide (key = EmptyString) then m else <[key := Trim t dq]> m).
Proof.
  unfold load_line.
  assert (Hline : TrimSpace (other_prefix +:+ dq +:+ t +:+ dq)
                  = other_prefix +:+ dq +:+ t +:+ dq).
  { rewrite <- (append_assoc dq t dq), <- (append_assoc other_prefix).
    apply (TrimSpace_delimited "o" _ DQ); done. }
  rewrite Hline.
  replace (is_header (other_prefix +:+ dq +:+ t +:+ dq)) with false by done.
  rewrite HasPrefix_app, slice_from_other, Trim_quoted.
  by destruct (decide (key = EmptyString)).
Qed.

Lemma load_blank st : load_line st EmptyString = st.
Proof. by destruct st. Qed.

Lemma load_block k t key m :
  fold_left load_line (block_lines k t) (key, m)
  = (k, if decide (k = EmptyString) then m else <[k := Trim t dq]> m).
Proof.
  unfold block_lines. cbn [fold_left].
  by rewrite load_header, load_value, load_blank.
Qed.

Lemma load_blocks (texts : string -> string) entries key m k :
  snd (fold_left load_line
         (flat_map (fun e => block_lines e (texts e)) entries) (key, m)) !! k
  = if decide (k ∈ entries /\ k <> EmptyString)
    then Some (Trim (texts k) dq) else m !! k.
Proof.
  revert key m. induction entries as [|e es IH]; intros key m.
  - simpl. destruct (decide (k ∈ [] /\ k <> EmptyString)) as [[H _]|];
      [by apply elem_of_nil in H|done].
  - cbn [flat_map]. rewrite fold_left_app, load_block, IH.
    destruct (decide (k ∈ es /\ k <> EmptyString)) as [[Hes Hk]|Hno];
      destruct (decide (k ∈ e :: es /\ k <> EmptyString)) as [[Hes' Hk']|Hno'].
    + done.
    + exfalso. apply Hno'. split; [by right|done].
    + apply elem_of_cons in Hes' as [->|Hes']; [|by destruct Hno].
      destruct (decide (e = EmptyString)); [done|].
      by rewrite lookup_insert_eq.
    + destruct (decide (e = EmptyString)); [done|].
      destruct (decide (e = k)) as [->|Hne].
      * exfalso. apply Hno'. split; [by left|done].
      * by rewrite lookup_insert_ne.
Qed.

Lemma default_message_get messages k :
  default_message messages k = map_get messages k.
Proof. unfold default_message, map_get. by destruct (messages !! k). Qed.

Lemma loadExistingTOML_entries fs path content existing :
  fs !! path = Some (Regular content) ->
  loadExistingTOML fs path = Ok existing ->
  existing = catalog_entries content.
Proof.
  intros Hf. unfold loadExistingTOML, os_IsNotExist, os_Open. rewrite Hf.
  destruct (Bufio.Scan content) as [lines scanErr] eqn:E.
  destruct scanErr; [done|]. intros [= <-].
  unfold Bufio.Scan in E. apply deliver_ok in E. by subst lines.
Qed.

Lemma catalog_entries_written (texts : string -> string) entries k :
  (forall e, e ∈ entries ->
     has_byte LF e = false /\ has_byte LF (texts e) = false) ->
  catalog_entries (catalog_text (map (fun e => (e, texts e)) entries)) !! k
  = if decide (k ∈ entries /\ k <> EmptyString)
    then Some (Trim (texts k) dq) else None.
Proof.
  intros H. unfold catalog_entries. rewrite raw_lines_catalog by done.
  assert (Hmap : forall es,
             map Bufio.dropCR (flat_map (fun e => block_lines e (texts e)) es)
             = flat_map (fun e => block_lines e (texts e)) es).
  { induction es as [|e es IH]; [done|].
    cbn [flat_map]. by rewrite map_app, dropCR_block_lines, IH. }
  rewrite Hmap. unfold load_loop. rewrite load_blocks.
  by destruct (decide _).
Qed.

(** The texts the writer chooses fit on one line when the keys' Default
    Messages do. *)
Lemma spec_text_one_line messages existing k :
  well_read existing -> has_byte LF (map_get messages k) = false ->
  has_byte LF (spec_text messages existing k) = false.
Proof.
  intros Hw Hm. unfold spec_text. rewrite default_message_get.
  destruct (existing !! k) as [v|] eqn:E; [|done].
  destruct (decide (v = EmptyString)); [done|].
  by destruct (Hw k v E) as (_ & ? & _).
Qed.

(** *** One line at a time *)

Lemma load_loop_snoc lines l :
  load_loop (lines ++ [l]) = load_line (load_loop lines) l.
Proof. unfold load_loop. by rewrite fold_left_app. Qed.

Lemma load_line_value st l :
  is_value_line l = true -> fst st <> EmptyString ->
  load_line st l = (fst st, <[fst st := value_of_line l]> (snd st)).
Proof.
  destruct st as [key m]. unfold is_value_line, load_line, value_of_line.
  intros [Hh%negb_true_iff Hv]%andb_true_iff Hkey. simpl in Hkey.
  rewrite Hh, Hv. by destruct (decide (key = EmptyString)).
Qed.

Lemma load_line_other_key st l k :
  is_value_line l = false \/ fst st <> k ->
  snd (load_line st l) !! k = snd st !! k.
Proof.
  destruct st as [key m]. unfold is_value_line, load_line.
  intros H. destruct (is_header (TrimSpace l)); cbn [negb andb fst snd] in *;
    [done|].
  destruct (HasPrefix (TrimSpace l) other_prefix); cbn [fst snd]; [|done].
  destruct (decide (key = EmptyString)); cbn [fst snd]; [done|].
  destruct H as [H|H]; [done|]. by rewrite lookup_insert_ne.
Qed.

(** The current key is the key of the last header line. *)
Lemma current_key_last_header pre h rest :
  is_header (TrimSpace h) = true ->
  Forall (fun l => is_header (TrimSpace l) = false) rest ->
  current_key (pre ++ h :: rest)
  = slice (TrimSpace h) 1 (len (TrimSpace h) - 1).
Proof.
  intros Hh. induction rest as [|x rest IH] using rev_ind; intros Hrest.
  - unfold current_key. rewrite load_loop_snoc.
    destruct (load_loop pre) as [key m]. unfold load_line. by rewrite Hh.
  - apply Forall_app in Hrest as [Hrest Hx].
    rewrite Forall_singleton in Hx.
    replace (pre ++ h :: rest ++ [x]) with ((pre ++ h :: rest) ++ [x])
      by by rewrite <- app_assoc.
    unfold current_key in *. rewrite load_loop_snoc, <- (IH Hrest).
    destruct (load_loop (pre ++ h :: rest)) as [key m].
    unfold load_line. rewrite Hx.
    destruct (HasPrefix (TrimSpace x) other_prefix); [|done].
    by destruct (decide (key = EmptyString)).
Qed.

End CatalogFacts.

(** * Properties of the catalog reader and writer *)

Section CatalogProperties.

(** C8: when no file exists at the path, [loadExistingTOML] returns the
    empty mapping and no error. *)
Theorem loadExistingTOML_missing (fs : filesystem) (path : string) :
  fs !! path = None -> loadExistingTOML fs path = Ok ∅.
Proof.
  intros H. unfold loadExistingTOML, os_IsNotExist. by rewrite H.
Qed.

Lemma loadExistingTOML_missing_witness :
  sample_fs !! "i18n/en.toml" = None
  /\ loadExistingTOML sample_fs "i18n/en.toml" = Ok ∅.
Proof.
  split; [reflexivity|].
  apply (loadExistingTOML_missing sample_fs "i18n/en.toml"). reflexivity.
Defined.

(** C2: for every Key of the list, in order, [generateTOML] writes a block
    whose text is the existing value if present and non-empty, otherwise
    the Default Message if there is one, otherwise the empty string; a new
    Key with a Default Message is rendered with that message between the
    quotes, a new Key without one with nothing between them. *)
Theorem generateTOML_text_choice (fs : filesystem) (entries : list string)
    (messages : gmap string string) (path : string)
    (existing : gmap string string) :
  loadExistingTOML fs path = Ok existing ->
  generateTOML fs entries messages path
  = (<[path := Regular
                 (catalog_text
                    (map (fun k => (k, spec_text messages existing k)) entries))]>
       fs, None)
  /\ (forall k m, existing !! k = None -> messages !! k = Some m ->
        toml_block k (spec_text messages existing k)
        = "[" +:+ k +:+ "]" +:+ nl +:+
          "other = " +:+ dq +:+ m +:+ dq +:+ nl +:+ nl)
  /\ (forall k, existing !! k = None -> messages !! k = None ->
        toml_block k (spec_text messages existing k)
        = "[" +:+ k +:+ "]" +:+ nl +:+ "other = " +:+ dq +:+ dq +:+ nl +:+ nl).
Proof.
  intros H. split; [|split].
  - rewrite (generateTOML_ok _ _ _ _ _ H). by rewrite render_spec.
  - intros k m He Hm. unfold spec_text, default_message. by rewrite He, Hm.
  - intros k He Hm. unfold spec_text, default_message. by rewrite He, Hm.
Qed.

Lemma generateTOML_text_choice_witness :
  loadExistingTOML sample_fs "i18n/de.toml"
  = Ok {[ "invalid_input" := "ungueltig"; "STALE" := "alt" ]}
  /\ generateTOML sample_fs ["NOT_FOUND"; "invalid_input"; "too_long"]
       (<["too_long" := "must be short"]> sample_messages) "i18n/de.toml"
     = (<["i18n/de.toml" :=
            Regular ("[NOT_FOUND]" +:+ nl +:+ "other = " +:+ dq +:+ dq +:+ nl +:+ nl
                     +:+ "[invalid_input]" +:+ nl +:+ "other = " +:+ dq
                     +:+ "ungueltig" +:+ dq +:+ nl +:+ nl
                     +:+ "[too_long]" +:+ nl +:+ "other = " +:+ dq
                     +:+ "must be short" +:+ dq +:+ nl +:+ nl)]> sample_fs,
        None).
Proof.
  split; [vm_compute; reflexivity|].
  destruct (generateTOML_text_choice sample_fs
              ["NOT_FOUND"; "invalid_input"; "too_long"]
              (<["too_long" := "must be short"]> sample_messages) "i18n/de.toml"
              {[ "invalid_input" := "ungueltig"; "STALE" := "alt" ]})
    as [H _]; [vm_compute; reflexivity|].
  etrans; [exact H|]. vm_compute; reflexivity.
Defined.

(** C1 (as the code has it): when [generateTOML] regenerates a catalog, the
    new file holds one block per Key of the list, in order, and nothing
    else, so that a key of the prior catalog that is not in the list is
    dropped; a Key of the list for which the prior catalog was read with a
    text that is not empty is written back with that text.  Read back
    (Keys and Default Messages being free of line feeds), the new file
    gives such a Key its prior text and has no entry for a key outside the
    list. *)
Theorem generateTOML_keeps_translations (fs : filesystem)
    (entries : list string) (messages : gmap string string) (path : string)
    (existing : gmap string string) :
  loadExistingTOML fs path = Ok existing ->
  exists texts : string -> string,
    let content := catalog_text (map (fun k => (k, texts k)) entries) in
    generateTOML fs entries messages path
    = (<[path := Regular content]> fs, None)
    /\ (forall k v, k ∈ entries -> existing !! k = Some v ->
          v <> EmptyString -> texts k = v)
    /\ ((forall k, k ∈ entries ->
           has_byte LF k = false /\ has_byte LF (map_get messages k) = false) ->
        (forall k v, k ∈ entries -> existing !! k = Some v ->
           v <> EmptyString -> catalog_entries content !! k = Some v)
        /\ (forall k, k ∉ entries -> catalog_entries content !! k = None)).
Proof.
  intros Hload.
  pose proof (loadExistingTOML_well_read _ _ _ Hload) as Hw.
  exists (spec_text messages existing). cbn zeta.
  assert (Ht : forall k v, existing !! k = Some v -> v <> EmptyString ->
                 spec_text messages existing k = v).
  { intros k v Hv Hne. unfold spec_text. rewrite Hv.
    by destruct (decide (v = EmptyString)). }
  split; [|split].
  - rewrite (generateTOML_ok _ _ _ _ _ Hload). by rewrite render_spec.
  - intros k v _ Hv Hne. by apply Ht.
  - intros Hlf.
    assert (Hlines : forall e, e ∈ entries ->
              has_byte LF e = false
              /\ has_byte LF (spec_text messages existing e) = false).
    { intros e He. destruct (Hlf e He) as [? ?]. split; [done|].
      by apply spec_text_one_line. }
    split.
    + intros k v Hk Hv Hne.
      rewrite catalog_entries_written by done.
      destruct (Hw k v Hv) as (Hk0 & _ & Hbare).
      rewrite decide_True by done. by rewrite (Ht k v Hv Hne), Trim_bare.
    + intros k Hk. rewrite catalog_entries_written by done.
      rewrite decide_False; [done|]. by intros [? _].
Qed.

Lemma generateTOML_keeps_translations_witness :
  loadExistingTOML sample_fs "i18n/de.toml"
  = Ok {[ "invalid_input" := "ungueltig"; "STALE" := "alt" ]}
  /\ exists texts : string -> string,
       generateTOML sample_fs ["NOT_FOUND"; "invalid_input"] sample_messages
         "i18n/de.toml"
       = (<["i18n/de.toml" :=
              Regular (catalog_text
                         (map (fun k => (k, texts k))
                              ["NOT_FOUND"; "invalid_input"]))]> sample_fs,
          None)
       /\ texts "invalid_input" = "ungueltig"
       /\ catalog_entries
            (catalog_text
               (map (fun k => (k, texts k)) ["NOT_FOUND"; "invalid_input"]))
          !! "STALE" = None.
Proof.
  split; [vm_compute; reflexivity|].
  destruct (generateTOML_keeps_translations sample_fs
              ["NOT_FOUND"; "invalid_input"] sample_messages "i18n/de.toml"
              {[ "invalid_input" := "ungueltig"; "STALE" := "alt" ]})
    as (texts & Hgen & Hkeep & Hback); [vm_compute; reflexivity|].
  destruct Hback as [_ Hdrop].
  { intros k Hk. repeat (apply elem_of_cons in Hk as [->|Hk]);
      [split; reflexivity | split; reflexivity | by apply elem_of_nil in Hk]. }
  exists texts. split; [exact Hgen|]. split.
  - apply (Hkeep "invalid_input" "ungueltig");
      [right; left | reflexivity | discriminate].
  - apply Hdrop. intros Hk.
    repeat (apply elem_of_cons in Hk as [Hk|Hk]; [discriminate Hk|]).
    by apply elem_of_nil in Hk.
Defined.

(** C1 as worded does not hold: a Key of the list whose text in the prior
    catalog is empty does not keep it when it has a Default Message. *)
Lemma generateTOML_replaces_empty_translation :
  loadExistingTOML untranslated_fs "i18n/en.toml"
  = Ok {[ "invalid_input" := EmptyString ]}
  /\ "invalid_input" ∈ ["invalid_input"]
  /\ generateTOML untranslated_fs ["invalid_input"] sample_messages
       "i18n/en.toml"
     = (<["i18n/en.toml" :=
            Regular ("[invalid_input]" +:+ nl +:+ "other = " +:+ dq
                     +:+ "must not be empty" +:+ dq +:+ nl +:+ nl)]>
          untranslated_fs, None)
  /\ catalog_entries
       ("[invalid_input]" +:+ nl +:+ "other = " +:+ dq
        +:+ "must not be empty" +:+ dq +:+ nl +:+ nl) !! "invalid_input"
     = Some "must not be empty".
Proof.
  split; [vm_compute; reflexivity|].
  split; [left|].
  split; vm_compute; reflexivity.
Qed.

(** X7: where the reader's way with quotes does no harm, regeneration is
    idempotent: when the Keys and their Default Messages hold no line feed
    and no Default Message begins or ends with a double quote, a second
    run of [generateTOML] with the same Keys and Default Messages leaves
    every file as the first run left it. *)
Theorem generateTOML_twice (fs : filesystem) (entries : list string)
    (messages : gmap string string) (path : string) :
  (forall k, k ∈ entries ->
     has_byte LF k = false /\ has_byte LF (map_get messages k) = false
     /\ bare (map_get messages k)) ->
  fst (generateTOML (fst (generateTOML fs entries messages path))
         entries messages path)
  = fst (generateTOML fs entries messages path).
Proof.
  intros H.
  destruct (loadExistingTOML fs path) as [existing|e] eqn:Hload.
  2:{ rewrite (generateTOML_failed _ _ _ _ _ Hload).
      apply (generateTOML_failed _ _ _ _ _ Hload). }
  pose proof (loadExistingTOML_well_read _ _ _ Hload) as Hw.
  rewrite (generateTOML_ok _ _ _ _ _ Hload), render_spec. cbn [fst].
  set (content := catalog_text
                    (map (fun k => (k, spec_text messages existing k)) entries)).
  set (fs1 := <[path := Regular content]> fs).
  destruct (loadExistingTOML fs1 path) as [existing1|e] eqn:Hload1.
  2:{ apply (generateTOML_failed _ _ _ _ _ Hload1). }
  assert (Hfile : fs1 !! path = Some (Regular content))
    by apply lookup_insert_eq.
  pose proof (loadExistingTOML_entries _ _ _ _ Hfile Hload1) as ->.
  rewrite (generateTOML_ok _ _ _ _ _ Hload1), render_spec. cbn [fst].
  assert (Hsame : map (fun k => (k, spec_text messages (catalog_entries content) k))
                      entries
                  = map (fun k => (k, spec_text messages existing k)) entries).
  { apply map_ext_in. intros k Hk%(proj2 (list_elem_of_In _ _)). f_equal.
    destruct (H k Hk) as (Hk_lf & Hm_lf & Hm_bare).
    unfold spec_text at 1. unfold content.
    rewrite catalog_entries_written.
    2:{ intros e' He'. destruct (H e' He') as (? & ? & _). split; [done|].
        by apply spec_text_one_line. }
    rewrite default_message_get.
    destruct (decide (k ∈ entries /\ k <> EmptyString)) as [[_ Hne]|Hno].
    - unfold spec_text. rewrite default_message_get.
      destruct (existing !! k) as [v|] eqn:Ev.
      + destruct (Hw k v Ev) as (_ & _ & Hv_bare).
        destruct (decide (v = EmptyString)) as [->|Hv].
        * rewrite (Trim_bare _ Hm_bare).
          by destruct (decide (map_get messages k = EmptyString)) as [->|].
        * rewrite (Trim_bare _ Hv_bare). by rewrite decide_False.
      + rewrite (Trim_bare _ Hm_bare).
        by destruct (decide (map_get messages k = EmptyString)) as [->|].
    - assert (k = EmptyString) as ->.
      { destruct (decide (k = EmptyString)); [done|]. by destruct Hno. }
      unfold spec_text.
      destruct (existing !! EmptyString) as [v|] eqn:Ev.
      + by destruct (Hw _ _ Ev) as (? & _).
      + symmetry. apply default_message_get. }
  rewrite Hsame. fold content. unfold fs1. by rewrite insert_insert_eq.
Qed.

Lemma generateTOML_twice_witness :
  (forall k, k ∈ ["NOT_FOUND"; "invalid_input"] ->
     has_byte LF k = false /\ has_byte LF (map_get sample_messages k) = false
     /\ bare (map_get sample_messages k))
  /\ fst (generateTOML
            (fst (generateTOML sample_fs ["NOT_FOUND"; "invalid_input"]
                    sample_messages "i18n/de.toml"))
            ["NOT_FOUND"; "invalid_input"] sample_messages "i18n/de.toml")
     = fst (generateTOML sample_fs ["NOT_FOUND"; "invalid_input"]
              sample_messages "i18n/de.toml").
Proof.
  assert (H : forall k, k ∈ ["NOT_FOUND"; "invalid_input"] ->
     has_byte LF k = false /\ has_byte LF (map_get sample_messages k) = false
     /\ bare (map_get sample_messages k)).
  { intros k Hk. repeat (apply elem_of_cons in Hk as [->|Hk]);
      [repeat split; reflexivity | repeat split; reflexivity
      | by apply elem_of_nil in Hk]. }
  split; [exact H|].
  apply (generateTOML_twice sample_fs ["NOT_FOUND"; "invalid_input"]
           sample_messages "i18n/de.toml" H).
Defined.

(** C3: a second run of [generateTOML] on its own first output should
    write the same bytes, and here it does not.  The Default Message that
    the raw-text scan extracts from a rule whose message ends in an escaped
    quote is written by the first run between the two quotes of the value
    line; [loadExistingTOML] then strips every quote at the end of the
    line, not only the one the writer added, and the second run writes the
    message without its last character. *)
Lemma generateTOML_second_run_differs :
  scan_outer quoting_block [] ∅ = (["name_quoted"], quoting_messages)
  /\ generateTOML ∅ ["name_quoted"] quoting_messages "i18n/en.toml"
     = ({[ "i18n/en.toml" := Regular quoting_first_run ]}, None)
  /\ generateTOML {[ "i18n/en.toml" := Regular quoting_first_run ]}
       ["name_quoted"] quoting_messages "i18n/en.toml"
     = ({[ "i18n/en.toml" := Regular quoting_second_run ]}, None)
  /\ quoting_first_run <> quoting_second_run.
Proof.
  split; [vm_compute; reflexivity|].
  split; [vm_compute; reflexivity|].
  split; [vm_compute; reflexivity|].
  apply String.eqb_neq. vm_compute; reflexivity.
Qed.

(** C9: when headers or value lines are repeated, the mapping that
    [loadExistingTOML] returns gives a Key the text of the last value line
    read while that Key was the current one (the Key of the last preceding
    header); a later value line overwrites an earlier one. *)
Theorem loadExistingTOML_last_value_wins (fs : filesystem)
    (path content : string) (pre : list string) (l : string)
    (post : list string) (k : string) :
  fs !! path = Some (Regular content) ->
  Bufio.Scan content = (pre ++ l :: post, None) ->
  current_key pre = k -> k <> EmptyString ->
  is_value_line l = true ->
  (forall p1 l' p2, post = p1 ++ l' :: p2 -> is_value_line l' = true ->
     current_key (pre ++ l :: p1) <> k) ->
  exists entries,
    loadExistingTOML fs path = Ok entries
    /\ entries !! k = Some (value_of_line l).
Proof.
  intros Hf HS Hk Hne Hl Hlater.
  exists (snd (load_loop (pre ++ l :: post))). split.
  { unfold loadExistingTOML, os_IsNotExist, os_Open. by rewrite Hf, HS. }
  clear Hf HS. induction post as [|x post IH] using rev_ind.
  - rewrite load_loop_snoc, load_line_value.
    + fold (current_key pre). rewrite Hk. apply lookup_insert_eq.
    + done.
    + fold (current_key pre). by rewrite Hk.
  - replace (pre ++ l :: post ++ [x]) with ((pre ++ l :: post) ++ [x])
      by by rewrite <- app_assoc.
    rewrite load_loop_snoc, load_line_other_key.
    + apply IH. intros p1 l' p2 -> Hv. apply (Hlater p1 l' (p2 ++ [x])); [|done].
      by rewrite <- app_assoc.
    + destruct (is_value_line x) eqn:Hx; [right|by left].
      by apply (Hlater post x []).
Qed.

Lemma loadExistingTOML_last_value_wins_witness :
  exists entries,
    loadExistingTOML {[ "i18n/fr.toml" := Regular (lines_to_file repeated_catalog) ]}
      "i18n/fr.toml" = Ok entries
    /\ entries !! "a" = Some "three".
Proof.
  apply (loadExistingTOML_last_value_wins
           {[ "i18n/fr.toml" := Regular (lines_to_file repeated_catalog) ]}
           "i18n/fr.toml" (lines_to_file repeated_catalog)
           (take 6 repeated_catalog)
           ("other = " +:+ dq +:+ "three" +:+ dq) ["[c]"] "a").
  - reflexivity.
  - vm_compute; reflexivity.
  - vm_compute; reflexivity.
  - discriminate.
  - vm_compute; reflexivity.
  - intros p1 l' p2 Hpost Hv.
    destruct p1 as [|? [|? ?]]; try discriminate Hpost.
    injection Hpost as <- <-. vm_compute in Hv. discriminate Hv.
Defined.

End CatalogProperties.

(** * Facts about the extraction *)

Section ExtractionFacts.

(** *** The enum walk *)

Lemma enum_selected_spec enumPrefix enumSuffix e :
  enum_selected enumPrefix enumSuffix e
  = satisfies_filters enumPrefix enumSuffix e.
Proof.
  unfold enum_selected, satisfies_filters, filter_satisfied.
  destruct (String.eqb_spec enumPrefix EmptyString) as [->|Hp];
    destruct (String.eqb_spec enumSuffix EmptyString) as [->|Hs];
    repeat (destruct (decide _); try done);
    cbn [negb andb]; by rewrite ?negb_involutive, ?andb_true_r.
Qed.

Lemma walk_fold enumPrefix enumSuffix definition entries :
  fold_left (visit_enum enumPrefix enumSuffix) definition entries
  = entries ++
    concat (map (fun e => if satisfies_filters enumPrefix enumSuffix e
                          then field_names (Elements e) else [])
                definition).
Proof.
  revert entries. induction definition as [|e d IH]; intros entries; simpl.
  - by rewrite app_nil_r.
  - rewrite IH. unfold visit_enum. rewrite enum_selected_spec.
    destruct (satisfies_filters enumPrefix enumSuffix e); simpl.
    + by rewrite <- app_assoc.
    + done.
Qed.

(** *** The raw-text scan *)

Lemma scan_outer_cons line rest entries messages :
  scan_outer (line :: rest) entries messages
  = if Contains line cel_marker
    then scan_block rest EmptyString EmptyString entries messages
    else scan_outer rest entries messages.
Proof. reflexivity. Qed.

Lemma scan_block_cons l rest id message entries messages :
  scan_block (l :: rest) id message entries messages
  = if HasPrefix (TrimSpace l) "id:" then
      match quoted (TrimSpace l) with
      | Some id' => scan_block rest id' message (entries ++ [id']) messages
      | None => scan_block rest id message entries messages
      end
    else if HasPrefix (TrimSpace l) "message:" then
      match quoted (TrimSpace l) with
      | Some message' => scan_block rest id message' entries messages
      | None => scan_block rest id message entries messages
      end
    else if closes_block (TrimSpace l) then
      scan_outer rest entries
        (if decide (id = EmptyString) then messages
         else <[id := message]> messages)
    else scan_block rest id message entries messages.
Proof. reflexivity. Qed.

(** The cases of one turn of the inner loop on line [l]: an id line with
    or without a quoted value, a message line with or without one, a
    closing line, any other line. *)
Ltac inner_loop_cases l :=
  rewrite ?scan_block_cons;
  destruct (HasPrefix (TrimSpace l) "id:");
    [ destruct (quoted (TrimSpace l))
    | destruct (HasPrefix (TrimSpace l) "message:");
        [ destruct (quoted (TrimSpace l))
        | destruct (closes_block (TrimSpace l)) ] ].

Lemma closes_block_first n :
  closes_block n = true ->
  HasPrefix n "id:" = false /\ HasPrefix n "message:" = false.
Proof.
  destruct n as [|c n]; [done|]. unfold closes_block.
  cbn [HasPrefix]. destruct (Ascii.eqb_spec c "}") as [->|Hc]; [done|].
  done.
Qed.


(** Once the scan is back in its outer loop, what precedes is done with. *)
Lemma scan_app pre rest :
  (in_block false pre = false ->
   forall entries messages,
     scan_outer (pre ++ rest) entries messages
     = scan_outer rest (fst (scan_outer pre entries messages))
                       (snd (scan_outer pre entries messages)))
  /\ (in_block true pre = false ->
      forall id message entries messages,
        scan_block (pre ++ rest) id message entries messages
        = scan_outer rest (fst (scan_block pre id message entries messages))
                          (snd (scan_block pre id message entries messages))).
Proof.
  induction pre as [|l pre [IHo IHb]]; [split; done|]. split.
  - cbn [in_block app]. intros H entries messages.
    rewrite !scan_outer_cons.
    destruct (Contains l cel_marker); [by apply IHb|by apply IHo].
  - cbn [in_block app]. intros H id message entries messages.
    inner_loop_cases l; solve [by apply IHb | by apply IHo].
Qed.

(** The scan only ever appends to the Key list. *)
Lemma scan_entries_grow lines :
  (forall entries messages,
     exists more, fst (scan_outer lines entries messages) = entries ++ more)
  /\ (forall id message entries messages,
        exists more,
          fst (scan_block lines id message entries messages) = entries ++ more).
Proof.
  induction lines as [|l lines [IHo IHb]].
  - split; intros; exists []; by rewrite app_nil_r.
  - split.
    + intros entries messages. rewrite scan_outer_cons.
      destruct (Contains l cel_marker); [apply IHb|apply IHo].
    + intros id message entries messages.
      inner_loop_cases l; try solve [apply IHb | apply IHo].
      match goal with
      | |- context [scan_block lines ?i message (entries ++ [?i]) messages] =>
          destruct (IHb i message (entries ++ [i]) messages) as [more ->];
          exists (i :: more); by rewrite <- app_assoc
      end.
Qed.

(** A block that no line closes records nothing. *)
Lemma scan_block_unclosed lines id message entries messages :
  Forall keeps_open lines ->
  snd (scan_block lines id message entries messages) = messages.
Proof.
  intros H. revert id message entries.
  induction H as [|l lines Hl _ IH]; intros id message entries; [done|].
  rewrite scan_block_cons. unfold keeps_open in Hl. rewrite Hl.
  destruct (HasPrefix (TrimSpace l) "id:").
  { destruct (quoted (TrimSpace l)); apply IH. }
  destruct (HasPrefix (TrimSpace l) "message:"); [|apply IH].
  destruct (quoted (TrimSpace l)); apply IH.
Qed.

Lemma scan_block_unclosed_app lines rest id message entries messages :
  Forall keeps_open lines ->
  exists id' message' more,
    scan_block (lines ++ rest) id message entries messages
    = scan_block rest id' message' (entries ++ more) messages.
Proof.
  intros H. revert id message entries.
  induction H as [|l lines Hl _ IH]; intros id message entries.
  - exists id, message, []. by rewrite app_nil_r.
  - cbn [app]. rewrite scan_block_cons. unfold keeps_open in Hl. rewrite Hl.
    destruct (HasPrefix (TrimSpace l) "id:").
    { destruct (quoted (TrimSpace l)) as [i|]; [|apply IH].
      destruct (IH i message (entries ++ [i])) as (id' & message' & more & ->).
      exists id', message', (i :: more). by rewrite <- app_assoc. }
    destruct (HasPrefix (TrimSpace l) "message:"); [|apply IH].
    destruct (quoted (TrimSpace l)); apply IH.
Qed.

Lemma parseProto_ok Parse fs path enumPrefix enumSuffix content definition
    lines :
  os_Open fs path = Ok content -> Parse content = Some definition ->
  Bufio.Scan content = (lines, None) ->
  parseProto Parse fs path enumPrefix enumSuffix
  = Ok (scan_outer lines (walk_enums enumPrefix enumSuffix definition) ∅).
Proof.
  intros Ho Hp Hs. unfold parseProto. rewrite Ho, Hp, Hs.
  by destruct (scan_outer _ _ _).
Qed.

(** *** The aggregation *)

Lemma add_file_tagged a parsed :
  add_file a parsed = fold_left add_tagged (tagged_entries parsed) a.
Proof.
  destruct parsed as [[entries messages]|e]; [|done]. simpl.
  revert a. induction entries as [|k ks IH]; intros a; [done|].
  simpl. apply IH.
Qed.

Lemma aggregate_tagged results a :
  fold_left add_file results a
  = fold_left add_tagged (concat (map tagged_entries results)) a.
Proof.
  revert a. induction results as [|r rs IH]; intros a; [done|].
  simpl. by rewrite fold_left_app, IH, add_file_tagged.
Qed.

Lemma tagged_keys results :
  map fst (concat (map tagged_entries results))
  = concat (map entries_of results).
Proof.
  induction results as [|r rs IH]; [done|].
  simpl. rewrite map_app, IH. f_equal.
  destruct r as [[entries messages]|e]; [|done]. simpl.
  induction entries as [|k ks IHk]; [done|]. simpl. by f_equal.
Qed.

Lemma first_seen_filter (P : string -> Prop) `{!forall k, Decision (P k)} keys :
  first_seen (filter P keys) = filter P (first_seen keys).
Proof.
  induction keys as [|k ks IH]; [done|].
  rewrite filter_cons. destruct (decide (P k)) as [Hk|Hk].
  - cbn [first_seen]. rewrite filter_cons, decide_True by done.
    f_equal. rewrite IH, !list_filter_filter.
    apply list_filter_iff. intros x. tauto.
  - cbn [first_seen]. rewrite filter_cons, decide_False by done.
    rewrite IH, list_filter_filter.
    apply list_filter_iff. intros x. split; [|tauto].
    intros Hx. split; [done|]. by intros ->.
Qed.

Lemma first_seen_elem keys k : k ∈ first_seen keys <-> k ∈ keys.
Proof.
  induction keys as [|x ks IH]; [done|]. cbn [first_seen].
  rewrite !elem_of_cons, list_elem_of_filter, IH.
  destruct (decide (k = x)); tauto.
Qed.

Lemma first_seen_NoDup keys : NoDup (first_seen keys).
Proof.
  induction keys as [|x ks IH]; [constructor|]. cbn [first_seen].
  constructor.
  - rewrite list_elem_of_filter. by intros [? _].
  - by apply NoDup_filter.
Qed.

Lemma filter_all (P : string -> Prop) `{!forall k, Decision (P k)}
    (keys : list string) :
  (forall k, P k) -> filter P keys = keys.
Proof.
  intros HP. induction keys as [|k ks IH]; [done|].
  by rewrite filter_cons_True, IH.
Qed.

Lemma seen_add_entry messages a x k :
  seen a x = false ->
  seen (add_entry messages a x) k = false <-> k <> x /\ seen a k = false.
Proof.
  intros Hx. unfold add_entry. rewrite Hx. unfold seen at 1. simpl.
  destruct (decide (x = k)) as [->|Hne].
  - rewrite lookup_insert_eq. simpl. split; [done|]. by intros [? _].
  - rewrite lookup_insert_ne by done. fold (seen a k). split.
    + intros ?. split; [by intros ->|done].
    + by intros [_ ?].
Qed.

Lemma aggregated_entries occs a :
  allEntries (fold_left add_tagged occs a)
  = allEntries a
    ++ first_seen (filter (fun k => seen a k = false) (map fst occs)).
Proof.
  revert a. induction occs as [|[x m] occs IH]; intros a.
  - simpl. by rewrite app_nil_r.
  - cbn [fold_left map fst]. rewrite IH.
    change (add_tagged a (x, m)) with (add_entry m a x).
    rewrite filter_cons. destruct (seen a x) eqn:Hx.
    + destruct (decide (true = false)); [done|]. unfold add_entry. by rewrite Hx.
    + destruct (decide (false = false)); [|done]. cbn [first_seen].
      rewrite <- first_seen_filter, list_filter_filter.
      replace (allEntries (add_entry m a x)) with (allEntries a ++ [x])
        by (unfold add_entry; by rewrite Hx).
      rewrite <- app_assoc. cbn [app]. do 3 f_equal.
      apply list_filter_iff. intros k. by apply seen_add_entry.
Qed.

Lemma aggregated_messages occs a k :
  allMessages (fold_left add_tagged occs a) !! k
  = if seen a k then allMessages a !! k
    else match first_message occs k with
         | Some v => Some v
         | None => allMessages a !! k
         end.
Proof.
  revert a. induction occs as [|[x m] occs IH]; intros a.
  - simpl. by destruct (seen a k).
  - cbn [fold_left first_message]. rewrite IH.
    unfold add_tagged. cbn [fst snd]. unfold add_entry.
    destruct (seen a x) eqn:Hx.
    + destruct (decide (x = k)) as [->|Hne]; [by rewrite Hx|done].
    + unfold seen at 1. cbn [seenEntries allMessages].
      destruct (decide (x = k)) as [->|Hne].
      * rewrite !lookup_insert_eq. simpl. by rewrite Hx.
      * rewrite !lookup_insert_ne by done. done.
Qed.

Lemma first_message_absent occs k :
  k ∉ map fst occs -> first_message occs k = None.
Proof.
  induction occs as [|[x m] occs IH]; [done|]. cbn [map fst first_message].
  intros H. rewrite not_elem_of_cons in H. destruct H as [Hne Hin].
  rewrite decide_False by done. by apply IH.
Qed.

Lemma first_message_app occs1 occs2 k :
  first_message (occs1 ++ occs2) k
  = match first_message occs1 k with
    | Some v => Some v
    | None => first_message occs2 k
    end.
Proof.
  induction occs1 as [|[x m] occs1 IH]; [done|]. cbn [app first_message].
  by destruct (decide (x = k)).
Qed.

Lemma first_message_file entries messages k :
  k ∈ entries ->
  first_message (map (fun k' => (k', messages)) entries) k
  = Some (map_get messages k).
Proof.
  induction entries as [|x ks IH]; [by intros ?%elem_of_nil|].
  intros H. cbn [map first_message].
  destruct (decide (x = k)) as [|Hne]; [done|]. apply IH.
  apply elem_of_cons in H as [->|H]; done.
Qed.

Lemma elem_of_concat_map {A} (f : A -> list string) (l : list A) k :
  k ∈ concat (map f l) -> exists r, r ∈ l /\ k ∈ f r.
Proof.
  induction l as [|r l IH]; [by intros ?%elem_of_nil|]. cbn [map concat].
  intros [H|H]%elem_of_app.
  - exists r. split; [left|done].
  - destruct (IH H) as (r' & ? & ?). exists r'. split; [by right|done].
Qed.

Lemma elem_of_concat_map_2 {A} (f : A -> list string) (l : list A) r k :
  r ∈ l -> k ∈ f r -> k ∈ concat (map f l).
Proof.
  intros Hr Hk. induction l as [|x l IH]; [by apply elem_of_nil in Hr|].
  cbn [map concat]. apply elem_of_app.
  apply elem_of_cons in Hr as [<-|Hr]; [by left|right; by apply IH].
Qed.

Lemma first_message_present occs k :
  k ∈ map fst occs -> is_Some (first_message occs k).
Proof.
  induction occs as [|[x m] occs IH]; [by intros ?%elem_of_nil|].
  cbn [map fst first_message]. intros H.
  destruct (decide (x = k)) as [|Hne]; [by eexists|].
  apply IH. apply elem_of_cons in H as [->|H]; done.
Qed.

(** *** A file that fails, and the files that do not *)

Lemma collect_skips Parse fs before bad after enumPrefix enumSuffix e :
  parseProto Parse fs bad enumPrefix enumSuffix = Err e ->
  collect Parse fs (before ++ bad :: after) enumPrefix enumSuffix
  = collect Parse fs (before ++ after) enumPrefix enumSuffix.
Proof.
  intros H. unfold collect, aggregate_results.
  rewrite !map_app, !fold_left_app. cbn [map fold_left]. by rewrite H.
Qed.

Lemma collect_keeps Parse fs protoFiles enumPrefix enumSuffix file entries
    messages k :
  file ∈ protoFiles ->
  parseProto Parse fs file enumPrefix enumSuffix = Ok (entries, messages) ->
  k ∈ entries ->
  k ∈ allEntries (collect Parse fs protoFiles enumPrefix enumSuffix)
  /\ is_Some (allMessages (collect Parse fs protoFiles enumPrefix enumSuffix)
              !! k).
Proof.
  intros Hf Hp Hk. unfold collect, aggregate_results.
  set (results := map _ protoFiles).
  assert (Hin : k ∈ map fst (concat (map tagged_entries results))).
  { rewrite tagged_keys. unfold results. rewrite map_map.
    apply (elem_of_concat_map_2 _ _ file); [done|]. by rewrite Hp. }
  rewrite aggregate_tagged. split.
  - rewrite aggregated_entries. cbn [allEntries no_entries app].
    rewrite filter_all by done. by apply first_seen_elem.
  - rewrite aggregated_messages.
    replace (seen no_entries k) with false by done.
    by destruct (first_message_present _ _ Hin) as [v ->].
Qed.

End ExtractionFacts.

(** * Properties of the extraction *)

Section ExtractionProperties.

(** C4: the aggregated Key list holds each Key once, in the order of
    first occurrence over the files as processed, and the aggregated map
    gives each Key the Default Message of the first file in which the Key
    occurs. *)
Theorem aggregate_first_occurrence
    (results : list (result (list string * gmap string string))) :
  let a := aggregate_results results in
  NoDup (allEntries a)
  /\ allEntries a = first_seen (concat (map entries_of results))
  /\ (forall k, k ∈ allEntries a <-> k ∈ concat (map entries_of results))
  /\ (forall before entries messages after k,
        results = before ++ Ok (entries, messages) :: after ->
        k ∈ entries ->
        (forall r, r ∈ before -> k ∉ entries_of r) ->
        allMessages a !! k = Some (map_get messages k)).
Proof.
  cbn zeta. unfold aggregate_results. rewrite aggregate_tagged.
  assert (He : allEntries
                 (fold_left add_tagged (concat (map tagged_entries results))
                    no_entries)
               = first_seen (concat (map entries_of results))).
  { rewrite aggregated_entries. cbn [allEntries no_entries app].
    rewrite filter_all by done. by rewrite tagged_keys. }
  split; [|split; [|split]].
  - rewrite He. apply first_seen_NoDup.
  - exact He.
  - intros k. rewrite He. apply first_seen_elem.
  - intros before entries messages after k -> Hk Hbefore.
    rewrite aggregated_messages. cbn [allMessages no_entries].
    replace (seen (mkAggregate [] ∅ ∅) k) with false by done.
    rewrite map_app, concat_app, first_message_app. cbn [map concat].
    rewrite first_message_absent.
    + rewrite first_message_app. cbn [tagged_entries].
      by rewrite first_message_file.
    + rewrite tagged_keys. intros (r & Hr & Hkr)%elem_of_concat_map.
      by apply (Hbefore r Hr).
Qed.

Lemma aggregate_first_occurrence_witness :
  allEntries (aggregate_results sample_results) = ["A"; "B"; "C"]
  /\ allMessages (aggregate_results sample_results) !! "B" = Some "first"
  /\ allMessages (aggregate_results sample_results) !! "A" = Some EmptyString.
Proof.
  destruct (aggregate_first_occurrence sample_results)
    as (_ & Hentries & _ & Hmessages).
  split; [|split].
  - etrans; [exact Hentries|]. vm_compute; reflexivity.
  - etrans; [apply (Hmessages [] ["A"; "B"] {[ "B" := "first" ]}
                      (drop 1 sample_results) "B")|].
    + reflexivity.
    + right; left.
    + intros r Hr. by apply elem_of_nil in Hr.
    + vm_compute; reflexivity.
  - etrans; [apply (Hmessages [] ["A"; "B"] {[ "B" := "first" ]}
                      (drop 1 sample_results) "A")|].
    + reflexivity.
    + left.
    + intros r Hr. by apply elem_of_nil in Hr.
    + vm_compute; reflexivity.
Defined.

(** C5: an enum contributes the names of its fields, in declaration
    order, exactly when its name satisfies the prefix filter and the suffix
    filter, an empty filter being always satisfied; with the suffix filter
    Error, FooError is included and FooStatus is not; with both filters
    empty every enum is included. *)
Theorem walk_enums_filters (enumPrefix enumSuffix : string)
    (definition : Proto) :
  walk_enums enumPrefix enumSuffix definition
  = concat (map (fun e => if satisfies_filters enumPrefix enumSuffix e
                          then field_names (Elements e) else [])
                definition)
  /\ (forall elements,
        satisfies_filters EmptyString "Error" (mkEnum "FooError" elements) = true
        /\ satisfies_filters EmptyString "Error" (mkEnum "FooStatus" elements)
           = false)
  /\ (forall e, satisfies_filters EmptyString EmptyString e = true)
  /\ walk_enums EmptyString "Error"
       [mkEnum "FooError" [EnumField "NOT_FOUND" 0; OtherElement;
                           EnumField "DENIED" 1];
        mkEnum "FooStatus" [EnumField "ACTIVE" 0]]
     = ["NOT_FOUND"; "DENIED"].
Proof.
  split; [|split; [|split]].
  - unfold walk_enums. by rewrite walk_fold.
  - intros elements. split; reflexivity.
  - intros e. reflexivity.
  - reflexivity.
Qed.

(** C7: a file that cannot be opened or does not parse makes [parseProto]
    fail; the loop of main then leaves the aggregate as it was, so that the
    file contributes no Key and no Default Message, and goes on with the
    remaining files: the aggregate is the one without that file, every Key
    of a remaining file that parses is in it with a Default Message entry,
    and the run is the one without that file: when the remaining files
    give a Key and the output directory is there, it generates the
    catalogs from their Keys and Default Messages. *)
Theorem parse_failure_is_skipped (Parse : string -> option Proto)
    (os_MkdirAll : filesystem -> string -> filesystem * option error)
    (fs : filesystem) (before : list string) (bad : string)
    (after : list string) (enumPrefix enumSuffix outputDir : string)
    (langList : list string) :
  is_ok (os_Open fs bad) = false
  \/ (exists content, os_Open fs bad = Ok content /\ Parse content = None) ->
  let a := collect Parse fs (before ++ bad :: after) enumPrefix enumSuffix in
  let a' := collect Parse fs (before ++ after) enumPrefix enumSuffix in
  is_ok (parseProto Parse fs bad enumPrefix enumSuffix) = false
  /\ (forall a0, add_file a0 (parseProto Parse fs bad enumPrefix enumSuffix)
                 = a0)
  /\ a = a'
  /\ (forall file entries messages k,
        file ∈ before ++ after ->
        parseProto Parse fs file enumPrefix enumSuffix = Ok (entries, messages) ->
        k ∈ entries ->
        k ∈ allEntries a /\ is_Some (allMessages a !! k))
  /\ main Parse os_MkdirAll fs (before ++ bad :: after) enumPrefix enumSuffix
       outputDir langList
     = main Parse os_MkdirAll fs (before ++ after) enumPrefix enumSuffix
         outputDir langList
  /\ (allEntries a' <> [] -> snd (os_MkdirAll fs outputDir) = None ->
      main Parse os_MkdirAll fs (before ++ bad :: after) enumPrefix enumSuffix
        outputDir langList
      = fold_left (generate_lang (allEntries a') (allMessages a') outputDir)
          langList (fst (os_MkdirAll fs outputDir))).
Proof.
  intros H a a'.
  assert (Herr : exists e, parseProto Parse fs bad enumPrefix enumSuffix = Err e).
  { unfold parseProto. destruct H as [H|(content & Ho & Hp)].
    - destruct (os_Open fs bad) as [c|e]; [done|]. by eexists.
    - rewrite Ho, Hp. by eexists. }
  destruct Herr as [e Herr].
  assert (Hc : a = a') by (by apply collect_skips with e).
  split; [by rewrite Herr|]. split; [by rewrite Herr|]. split; [done|].
  split; [|split].
  - intros file entries messages k Hf Hp Hk. rewrite Hc. unfold a'.
    by apply collect_keeps with file entries messages.
  - unfold main. fold a a'. by rewrite Hc.
  - intros Hkeys Hdir. unfold main. fold a. rewrite Hc.
    destruct (allEntries a') as [|k ks] eqn:He; [done|]. rewrite <- He.
    destruct (os_MkdirAll fs outputDir) as [fs' [err|]]; [done|done].
Qed.

Lemma parse_failure_is_skipped_witness :
  (is_ok (os_Open sample_sources "api/locked.proto") = false
   \/ (exists content, os_Open sample_sources "api/locked.proto" = Ok content
                       /\ sample_parse content = None))
  /\ (exists content, os_Open sample_sources "api/broken.proto" = Ok content
                      /\ sample_parse content = None)
  /\ allEntries (collect sample_parse sample_sources
                   (["api/broken.proto"] ++ "api/locked.proto" :: ["api/a.proto"])
                   EmptyString "Error")
     = ["NOT_FOUND"; "DENIED"; "invalid_input"]
  /\ allMessages (collect sample_parse sample_sources
                    (["api/broken.proto"] ++ "api/locked.proto" :: ["api/a.proto"])
                    EmptyString "Error") !! "invalid_input"
     = Some "must not be empty"
  /\ main sample_parse sample_mkdir sample_sources
       (["api/broken.proto"] ++ "api/locked.proto" :: ["api/a.proto"])
       EmptyString "Error" "i18n" ["en"] !! "i18n/en.toml"
     = Some (Regular
               ("[NOT_FOUND]" +:+ nl +:+ "other = " +:+ dq +:+ dq +:+ nl +:+ nl
                +:+ "[DENIED]" +:+ nl +:+ "other = " +:+ dq +:+ dq +:+ nl +:+ nl
                +:+ "[invalid_input]" +:+ nl +:+ "other = " +:+ dq
                +:+ "must not be empty" +:+ dq +:+ nl +:+ nl)).
Proof.
  split; [left; reflexivity|].
  split; [exists "syntax error"; split; reflexivity|].
  destruct (parse_failure_is_skipped sample_parse sample_mkdir sample_sources
              ["api/broken.proto"] "api/locked.proto" ["api/a.proto"]
              EmptyString "Error" "i18n" ["en"])
    as (_ & _ & Hc & _ & Hm & _).
  { left. reflexivity. }
  destruct (parse_failure_is_skipped sample_parse sample_mkdir sample_sources
              [] "api/broken.proto" ["api/a.proto"]
              EmptyString "Error" "i18n" ["en"])
    as (_ & _ & Hc' & _ & Hm' & _).
  { right. exists "syntax error". split; reflexivity. }
  cbn [app] in *. split; [|split].
  - rewrite Hc, Hc'. vm_compute; reflexivity.
  - rewrite Hc, Hc'. vm_compute; reflexivity.
  - rewrite Hm, Hm'. vm_compute; reflexivity.
Defined.

(** C10: when a validation-rule block holds an id line with a quoted value
    and the file ends before a line closes the block, the id is appended
    to the Key list all the same, and the block records no Default
    Message, whatever message lines it holds: the map is the one the scan
    had when the block opened. *)
Theorem parseProto_unclosed_block (Parse : string -> option Proto)
    (fs : filesystem) (path enumPrefix enumSuffix content : string)
    (definition : Proto) (pre : list string) (marker : string)
    (block1 : list string) (idl : string) (block2 : list string)
    (i : string) :
  os_Open fs path = Ok content -> Parse content = Some definition ->
  Bufio.Scan content = (pre ++ marker :: block1 ++ idl :: block2, None) ->
  in_block false pre = false ->
  Contains marker cel_marker = true ->
  HasPrefix (TrimSpace idl) "id:" = true -> quoted (TrimSpace idl) = Some i ->
  Forall keeps_open (block1 ++ block2) ->
  exists entries messages,
    parseProto Parse fs path enumPrefix enumSuffix = Ok (entries, messages)
    /\ i ∈ entries
    /\ messages
       = snd (scan_outer pre (walk_enums enumPrefix enumSuffix definition) ∅).
Proof.
  intros Ho Hp Hs Hpre Hm Hid Hi Hopen.
  set (W := walk_enums enumPrefix enumSuffix definition).
  apply Forall_app in Hopen as [Hopen1 Hopen2].
  assert (Hidl : keeps_open idl).
  { unfold keeps_open. destruct (closes_block (TrimSpace idl)) eqn:E; [|done].
    destruct (closes_block_first _ E) as [E' _]. by rewrite E' in Hid. }
  destruct (scan_app pre (marker :: block1 ++ idl :: block2)) as [Happ _].
  pose proof (parseProto_ok Parse _ _ enumPrefix enumSuffix _ _ _ Ho Hp Hs)
    as Hparse.
  fold W in Hparse. rewrite (Happ Hpre) in Hparse.
  eexists _, _. split; [|split].
  - rewrite Hparse. f_equal. apply surjective_pairing.
  - rewrite scan_outer_cons, Hm.
    destruct (scan_block_unclosed_app block1 (idl :: block2) EmptyString
                EmptyString (fst (scan_outer pre W ∅))
                (snd (scan_outer pre W ∅)) Hopen1)
      as (id' & message' & more & ->).
    rewrite scan_block_cons, Hid, Hi.
    destruct (proj2 (scan_entries_grow block2) i message'
                ((fst (scan_outer pre W ∅) ++ more) ++ [i])
                (snd (scan_outer pre W ∅))) as [more' ->].
    rewrite !elem_of_app. left; right. by left.
  - rewrite scan_outer_cons, Hm. apply scan_block_unclosed.
    apply Forall_app. split; [done|]. by constructor.
Qed.

Lemma parseProto_unclosed_block_witness :
  exists entries messages,
    parseProto sample_parse unclosed_sources "api/open.proto"
      EmptyString EmptyString = Ok (entries, messages)
    /\ "orphan" ∈ entries
    /\ messages = {[ "invalid_input" := "must not be empty" ]}.
Proof.
  destruct (parseProto_unclosed_block sample_parse unclosed_sources
              "api/open.proto" EmptyString EmptyString
              (lines_to_file (sample_block ++ unclosed_block)) []
              sample_block
              "  string name = 1 [(buf.validate.field).cel = {"
              ["    message: " +:+ dq +:+ "never recorded" +:+ dq]
              ("    id: " +:+ dq +:+ "orphan" +:+ dq)
              ["    expression: " +:+ dq +:+ "true" +:+ dq]
              "orphan")
    as (entries & messages & Hparse & Hkey & Hmsg);
    try (vm_compute; reflexivity).
  - repeat constructor.
  - exists entries, messages. split; [exact Hparse|]. split; [exact Hkey|].
    etrans; [exact Hmsg|]. vm_compute; reflexivity.
Defined.

End ExtractionProperties.

(** * Further properties of the catalog reader and writer *)

Section CatalogOutcomes.

Lemma deliver_all raw :
  Bufio.deliver raw
  = if forallb Bufio.fits raw then (map Bufio.dropCR raw, None)
    else (fst (Bufio.deliver raw), Some ErrTooLong).
Proof.
  induction raw as [|l raw IH]; [done|]. cbn [Bufio.deliver forallb map].
  destruct (Bufio.fits l); [|done]. cbn [andb]. rewrite IH.
  destruct (forallb Bufio.fits raw); [done|].
  by destruct (Bufio.deliver raw).
Qed.

Lemma loadExistingTOML_cases (fs : filesystem) (path : string) :
  loadExistingTOML fs path
  = match fs !! path with
    | None => Ok ∅
    | Some NoAccess => Err (Wrap "open TOML file" ErrPermission)
    | Some (Regular content) =>
        if forallb Bufio.fits (Bufio.raw_lines content)
        then Ok (catalog_entries content)
        else Err (Wrap "read TOML file" ErrTooLong)
    end.
Proof.
  unfold loadExistingTOML, os_IsNotExist, os_Open.
  destruct (fs !! path) as [[content|]|]; [|done|done].
  unfold Bufio.Scan. rewrite deliver_all.
  by destruct (forallb Bufio.fits (Bufio.raw_lines content)).
Qed.

Lemma load_line_cases st l :
  (is_header (TrimSpace l) = true /\ load_line st l = (header_key l, snd st))
  \/ (is_value_line l = true /\ fst st <> EmptyString
      /\ load_line st l = (fst st, <[fst st := value_of_line l]> (snd st)))
  \/ load_line st l = st.
Proof.
  destruct st as [key m]. unfold load_line, is_value_line, header_key, value_of_line.
  destruct (is_header (TrimSpace l)); [by left|]. cbn [negb andb fst snd].
  destruct (HasPrefix (TrimSpace l) other_prefix); [|by right; right].
  destruct (decide (key = EmptyString)); [by right; right|].
  right; left. done.
Qed.

Lemma header_key_one_line l :
  has_byte LF l = false -> has_byte LF (header_key l) = false.
Proof. intros H. unfold header_key. auto with one_line. Qed.

Lemma load_lines_key_one_line lines st :
  (forall l, l ∈ lines -> has_byte LF l = false) ->
  has_byte LF (fst st) = false ->
  (forall k v, snd st !! k = Some v -> has_byte LF k = false) ->
  has_byte LF (fst (fold_left load_line lines st)) = false
  /\ (forall k v, snd (fold_left load_line lines st) !! k = Some v ->
        has_byte LF k = false).
Proof.
  revert st. induction lines as [|l lines IH]; intros st Hl Hkey Hm; [done|].
  cbn [fold_left]. apply IH.
  - intros l' ?. apply Hl. by right.
  - destruct (load_line_cases st l) as [[_ ->]|[(_ & _ & ->)| ->]]; cbn [fst]; try done.
    apply header_key_one_line, Hl. by left.
  - destruct (load_line_cases st l) as [[_ ->]|[(_ & _ & ->)| ->]]; cbn [snd]; try done.
    intros k v. destruct (decide (fst st = k)) as [<-|Hne].
    + done.
    + rewrite lookup_insert_ne by done. apply Hm.
Qed.

(** X2: every entry [loadExistingTOML] returns has a non-empty key, and
    neither its key nor its text holds a line feed, and its text neither
    begins nor ends with a double quote. *)
Theorem loadExistingTOML_entry_shape (fs : filesystem) (path : string)
    (existing : gmap string string) (k v : string) :
  loadExistingTOML fs path = Ok existing ->
  existing !! k = Some v ->
  k <> EmptyString /\ has_byte LF k = false /\ has_byte LF v = false /\ bare v.
Proof.
  intros Hload Hk.
  destruct (loadExistingTOML_well_read _ _ _ Hload k v Hk) as (? & ? & ?).
  split; [done|]. split; [|done].
  revert Hload. unfold loadExistingTOML. destruct (os_IsNotExist fs path).
  { intros [= <-]. by rewrite lookup_empty in Hk. }
  destruct (os_Open fs path) as [content|]; [|done].
  destruct (Bufio.Scan content) as [lines scanErr] eqn:E.
  destruct scanErr; [done|]. intros [= <-].
  eapply (load_lines_key_one_line lines (EmptyString, ∅)); [|done| |exact Hk].
  - by apply (Scan_no_lf _ _ _ E).
  - intros k' v'. cbn [snd]. by rewrite lookup_empty.
Qed.

Lemma loadExistingTOML_entry_shape_witness :
  loadExistingTOML sample_fs "i18n/de.toml"
  = Ok {[ "invalid_input" := "ungueltig"; "STALE" := "alt" ]}
  /\ "STALE" <> EmptyString /\ has_byte LF "STALE" = false
  /\ has_byte LF "alt" = false /\ bare "alt".
Proof.
  split; [vm_compute; reflexivity|].
  apply (loadExistingTOML_entry_shape sample_fs "i18n/de.toml"
           {[ "invalid_input" := "ungueltig"; "STALE" := "alt" ]} "STALE" "alt");
    vm_compute; reflexivity.
Defined.

(** Where the entries of a catalog come from. *)
Lemma load_loop_provenance lines :
  (current_key lines = EmptyString
   \/ exists pre h post,
        lines = pre ++ h :: post /\ is_header (TrimSpace h) = true
        /\ header_key h = current_key lines)
  /\ (forall k v, snd (load_loop lines) !! k = Some v ->
        exists pre h mid l post,
          lines = pre ++ h :: mid ++ l :: post
          /\ is_header (TrimSpace h) = true /\ header_key h = k
          /\ is_value_line l = true /\ value_of_line l = v).
Proof.
  induction lines as [|x lines [IHk IHm]] using rev_ind.
  { split; [by left|]. intros k v. cbn. by rewrite lookup_empty. }
  assert (Hold : forall k v, snd (load_loop lines) !! k = Some v ->
            exists pre h mid l post,
              lines ++ [x] = pre ++ h :: mid ++ l :: post
              /\ is_header (TrimSpace h) = true /\ header_key h = k
              /\ is_value_line l = true /\ value_of_line l = v).
  { intros k v Hkv.
    destruct (IHm k v Hkv) as (pre & h & mid & l & post & -> & ?).
    exists pre, h, mid, l, (post ++ [x]). split; [|done].
    by rewrite <- !app_assoc, <- !app_comm_cons, <- app_assoc. }
  assert (Hkey : current_key lines = EmptyString
                 \/ exists pre h post,
                      lines ++ [x] = pre ++ h :: post
                      /\ is_header (TrimSpace h) = true
                      /\ header_key h = current_key lines).
  { destruct IHk as [?|(pre & h & post & -> & ?)]; [by left|right].
    exists pre, h, (post ++ [x]). split; [|done].
    by rewrite <- app_assoc. }
  unfold current_key in *. rewrite load_loop_snoc.
  destruct (load_line_cases (load_loop lines) x)
    as [[Hh ->]|[(Hv & Hne & ->)| ->]]; cbn [fst snd].
  - split; [|done]. right. by exists lines, x, [].
  - split; [done|]. intros k v.
    destruct (decide (fst (load_loop lines) = k)) as [<-|Hk].
    + rewrite lookup_insert_eq. intros [= <-].
      destruct IHk as [?|(pre & h & post & -> & Hh & Hhk)]; [done|].
      exists pre, h, post, x, []. split; [|done].
      by rewrite <- app_assoc.
    + rewrite lookup_insert_ne by done. apply Hold.
  - done.
Qed.

(** X3: every entry [loadExistingTOML] returns comes from a header line
    of the file that names its key and a later value line that holds its
    text; a file without a header line gives the empty mapping. *)
Theorem loadExistingTOML_provenance (fs : filesystem) (path content : string)
    (existing : gmap string string) :
  fs !! path = Some (Regular content) ->
  loadExistingTOML fs path = Ok existing ->
  (forall k v, existing !! k = Some v ->
     exists pre h mid l post,
       scanned_lines content = pre ++ h :: mid ++ l :: post
       /\ is_header (TrimSpace h) = true /\ header_key h = k
       /\ is_value_line l = true /\ value_of_line l = v)
  /\ (Forall (fun l => is_header (TrimSpace l) = false) (scanned_lines content) ->
      existing = ∅).
Proof.
  intros Hf Hload. rewrite (loadExistingTOML_entries _ _ _ _ Hf Hload).
  pose proof (proj2 (load_loop_provenance (scanned_lines content))) as Hp.
  split; [exact Hp|].
  intros Hnone. apply map_eq. intros k. rewrite lookup_empty.
  destruct (catalog_entries content !! k) as [v|] eqn:E; [|done].
  destruct (Hp k v E) as (pre & h & mid & l & post & Hl & Hh & _).
  unfold scanned_lines in *. rewrite Hl in Hnone.
  apply Forall_app in Hnone as [_ Hnone]. inversion Hnone as [|? ? Hh' _].
  by rewrite Hh in Hh'.
Qed.

Lemma loadExistingTOML_provenance_witness :
  sample_fs !! "i18n/de.toml" = Some (Regular sample_catalog)
  /\ exists pre h mid l post,
       scanned_lines sample_catalog = pre ++ h :: mid ++ l :: post
       /\ header_key h = "STALE" /\ value_of_line l = "alt".
Proof.
  split; [reflexivity|].
  destruct (loadExistingTOML_provenance sample_fs "i18n/de.toml" sample_catalog
              {[ "invalid_input" := "ungueltig"; "STALE" := "alt" ]})
    as [Hp _]; [reflexivity | vm_compute; reflexivity |].
  destruct (Hp "STALE" "alt") as (pre & h & mid & l & post & H1 & _ & H2 & _ & H3);
    [vm_compute; reflexivity|].
  by exists pre, h, mid, l, post.
Defined.

Lemma generateTOML_frame fs entries messages path p :
  p <> path ->
  fst (generateTOML fs entries messages path) !! p = fs !! p.
Proof.
  intros Hp. unfold generateTOML, os_WriteFile.
  destruct (loadExistingTOML fs path); [|done].
  destruct (fs !! path) as [[c|]|]; cbn [fst]; try done;
    by rewrite lookup_insert_ne.
Qed.

(** X4: [generateTOML] changes no path but the catalog's. *)
Theorem generateTOML_touches_one_path (fs : filesystem)
    (entries : list string) (messages : gmap string string)
    (path p : string) :
  p <> path ->
  fst (generateTOML fs entries messages path) !! p = fs !! p.
Proof.
  intros Hp. unfold generateTOML.
  destruct (loadExistingTOML fs path) as [existing|e]; [|done].
  unfold os_WriteFile.
  destruct (fs !! path) as [[c|]|]; cbn [fst]; try done;
    by rewrite lookup_insert_ne.
Qed.

Lemma generateTOML_touches_one_path_witness :
  "i18n/de.toml" <> "i18n/en.toml"
  /\ fst (generateTOML sample_fs ["NOT_FOUND"] sample_messages "i18n/en.toml")
     !! "i18n/de.toml" = Some (Regular sample_catalog).
Proof.
  split; [discriminate|].
  etrans; [apply (generateTOML_touches_one_path sample_fs ["NOT_FOUND"]
                    sample_messages "i18n/en.toml" "i18n/de.toml");
           discriminate|].
  reflexivity.
Defined.

(** X5: a prior catalog that exists but cannot be opened, or that holds a
    line of 65536 bytes or more, makes [generateTOML] return an error and
    leave the file system, that catalog included, as it was. *)
Theorem generateTOML_unreadable_catalog (fs : filesystem)
    (entries : list string) (messages : gmap string string) (path : string) :
  fs !! path = Some NoAccess
  \/ (exists content, fs !! path = Some (Regular content)
                      /\ forallb Bufio.fits (Bufio.raw_lines content) = false) ->
  exists e,
    generateTOML fs entries messages path
    = (fs, Some (Wrap "load existing TOML" e)).
Proof.
  intros H. unfold generateTOML. rewrite loadExistingTOML_cases.
  destruct H as [->|(content & -> & ->)]; by eexists.
Qed.

Lemma generateTOML_unreadable_catalog_witness :
  (exists content,
     over_long_catalog !! "i18n/en.toml" = Some (Regular content)
     /\ forallb Bufio.fits (Bufio.raw_lines content) = false)
  /\ exists e,
       generateTOML over_long_catalog ["k"] ∅ "i18n/en.toml"
       = (over_long_catalog, Some (Wrap "load existing TOML" e)).
Proof.
  assert (H : exists content,
     over_long_catalog !! "i18n/en.toml" = Some (Regular content)
     /\ forallb Bufio.fits (Bufio.raw_lines content) = false).
  { eexists. split; [reflexivity|]. vm_compute; reflexivity. }
  split; [exact H|].
  apply (generateTOML_unreadable_catalog over_long_catalog ["k"] ∅
           "i18n/en.toml"). by right.
Defined.

Lemma fits_block_lines k t :
  fits_with 2 k -> fits_with 10 t ->
  forallb Bufio.fits (block_lines k t) = true.
Proof.
  unfold fits_with, block_lines, Bufio.fits, other_prefix, dq, str1.
  intros Hk Ht. cbn [forallb].
  rewrite !length_append. cbn [String.length].
  unfold Bufio.MaxScanTokenSize in *.
  rewrite !andb_true_iff, !N.ltb_lt. repeat split; (lia || done).
Qed.

Lemma fits_catalog (texts : string -> string) entries :
  (forall k, k ∈ entries -> fits_with 2 k /\ fits_with 10 (texts k)) ->
  forallb Bufio.fits (flat_map (fun k => block_lines k (texts k)) entries)
  = true.
Proof.
  induction entries as [|e es IH]; intros H; [done|].
  cbn [flat_map]. rewrite forallb_app, IH.
  - destruct (H e) as [? ?]; [by left|]. by rewrite fits_block_lines.
  - intros k ?. apply H. by right.
Qed.

(** X6: a catalog that [generateTOML] has written is read by
    [loadExistingTOML], when keys and texts hold no line feed and leave
    room in the scanner's buffer, as the mapping of every non-empty Key of
    the list to its text less the quotes at its ends, and of no other
    key. *)
Theorem generateTOML_read_back (fs : filesystem) (entries : list string)
    (messages : gmap string string) (path : string)
    (existing : gmap string string) :
  loadExistingTOML fs path = Ok existing ->
  (forall k, k ∈ entries ->
     has_byte LF k = false /\ has_byte LF (map_get messages k) = false
     /\ fits_with 2 k /\ fits_with 10 (spec_text messages existing k)) ->
  exists existing',
    loadExistingTOML (fst (generateTOML fs entries messages path)) path
    = Ok existing'
    /\ forall k,
         existing' !! k
         = if decide (k ∈ entries /\ k <> EmptyString)
           then Some (Trim (spec_text messages existing k) dq) else None.
Proof.
  intros Hload H.
  pose proof (loadExistingTOML_well_read _ _ _ Hload) as Hw.
  assert (Hlines : forall e, e ∈ entries ->
            has_byte LF e = false
            /\ has_byte LF (spec_text messages existing e) = false).
  { intros e He. destruct (H e He) as (? & ? & _). split; [done|].
    by apply spec_text_one_line. }
  rewrite (generateTOML_ok _ _ _ _ _ Hload), render_spec. cbn [fst].
  eexists. split.
  - rewrite loadExistingTOML_cases, lookup_insert_eq.
    rewrite raw_lines_catalog by done. rewrite fits_catalog; [done|].
    intros k Hk. by destruct (H k Hk) as (_ & _ & ? & ?).
  - intros k. by rewrite catalog_entries_written.
Qed.

Lemma generateTOML_read_back_witness :
  exists existing',
    loadExistingTOML
      (fst (generateTOML sample_fs ["NOT_FOUND"; "invalid_input"]
              sample_messages "i18n/de.toml")) "i18n/de.toml"
    = Ok existing'
    /\ existing' !! "invalid_input" = Some "ungueltig"
    /\ existing' !! "STALE" = None.
Proof.
  destruct (generateTOML_read_back sample_fs ["NOT_FOUND"; "invalid_input"]
              sample_messages "i18n/de.toml"
              {[ "invalid_input" := "ungueltig"; "STALE" := "alt" ]})
    as (existing' & Hload & Hk); [vm_compute; reflexivity| |].
  - intros k Hk. repeat (apply elem_of_cons in Hk as [->|Hk]);
      [ repeat split; vm_compute; reflexivity
      | repeat split; vm_compute; reflexivity
      | by apply elem_of_nil in Hk ].
  - exists existing'. split; [exact Hload|]. split.
    + rewrite Hk. vm_compute; reflexivity.
    + rewrite Hk. vm_compute; reflexivity.
Defined.

End CatalogOutcomes.

(** * Further properties of the extraction *)

Section QuotedValue.

Lemma len_cons c s : len (String c s) = len s + 1.
Proof. unfold len. cbn [String.length]. lia. Qed.

Lemma len_append s t : len (s +:+ t) = len s + len t.
Proof. unfold len. rewrite length_append. lia. Qed.

Lemma len_nonneg s : 0 <= len s.
Proof. unfold len. lia. Qed.

Lemma has_byte_false_cons c d s :
  has_byte c (String d s) = false <-> d <> c /\ has_byte c s = false.
Proof.
  cbn [has_byte]. rewrite orb_false_iff, Ascii.eqb_neq. done.
Qed.

Lemma Index_none s : has_byte DQ s = false -> Index s dq = -1.
Proof.
  induction s as [|c s IH]; [done|]. intros [Hc Hs]%has_byte_false_cons.
  cbn [Index]. rewrite HasPrefix_dq_cons.
  apply Ascii.eqb_neq in Hc. rewrite Hc, (IH Hs). done.
Qed.

Lemma Index_first pre rest :
  has_byte DQ pre = false -> Index (pre +:+ dq +:+ rest) dq = len pre.
Proof.
  induction pre as [|c pre IH]; [done|]. intros [Hc Hs]%has_byte_false_cons.
  rewrite append_cons. cbn [Index]. rewrite HasPrefix_dq_cons.
  apply Ascii.eqb_neq in Hc. rewrite Hc, (IH Hs), len_cons.
  pose proof (len_nonneg pre). destruct (len pre <? 0) eqn:E; [lia|done].
Qed.

Lemma LastIndex_none s : has_byte DQ s = false -> LastIndex s dq = -1.
Proof.
  induction s as [|c s IH]; [done|]. intros [Hc Hs]%has_byte_false_cons.
  cbn [LastIndex]. rewrite (IH Hs), HasPrefix_dq_cons.
  apply Ascii.eqb_neq in Hc. by rewrite Hc.
Qed.

Lemma LastIndex_last init post :
  has_byte DQ post = false -> LastIndex (init +:+ dq +:+ post) dq = len init.
Proof.
  intros Hpost. induction init as [|c init IH].
  - rewrite append_nil_l. change (dq +:+ post) with (String DQ post).
    cbn [LastIndex]. rewrite (LastIndex_none _ Hpost), HasPrefix_dq_cons.
    by rewrite Ascii.eqb_refl.
  - rewrite append_cons. cbn [LastIndex]. rewrite IH, len_cons.
    pose proof (len_nonneg init). destruct (0 <=? len init) eqn:E; [done|lia].
Qed.

(** A string with a quote splits at its first and at its last quote. *)
Lemma split_first_quote s :
  has_byte DQ s = true ->
  exists pre rest, s = pre +:+ dq +:+ rest /\ has_byte DQ pre = false.
Proof.
  induction s as [|c s IH]; [done|]. cbn [has_byte].
  destruct (Ascii.eqb_spec c DQ) as [->|Hc].
  - intros _. by exists EmptyString, s.
  - cbn [orb]. intros (pre & rest & -> & Hpre)%IH.
    exists (String c pre), rest. split; [done|].
    apply has_byte_false_cons. done.
Qed.

Lemma split_last_quote s :
  has_byte DQ s = true ->
  exists init post, s = init +:+ dq +:+ post /\ has_byte DQ post = false.
Proof.
  induction s as [|c s IH]; [done|]. cbn [has_byte].
  destruct (has_byte DQ s) eqn:Hs.
  - intros _. destruct (IH eq_refl) as (init & post & -> & Hpost).
    by exists (String c init), post.
  - rewrite orb_false_r. intros ->%Ascii.eqb_eq. by exists EmptyString, s.
Qed.

Lemma append_eq_split s1 t1 s2 t2 :
  s1 +:+ t1 = s2 +:+ t2 -> (String.length s1 <= String.length s2)%nat ->
  exists m, s2 = s1 +:+ m /\ t1 = m +:+ t2.
Proof.
  revert s2. induction s1 as [|c s1 IH]; intros s2 H Hlen.
  - by exists s2.
  - destruct s2 as [|d s2]; [cbn in Hlen; lia|].
    rewrite !append_cons in H. injection H as -> H.
    destruct (IH s2 H) as (m & -> & ->); [cbn in Hlen; lia|].
    by exists m.
Qed.

Lemma substring_skip a n m s :
  String.substring (String.length a + n) m (a +:+ s) = String.substring n m s.
Proof. induction a as [|c a IH]; [done|]. rewrite append_cons. exact IH. Qed.

Lemma slice_middle a i b :
  slice (a +:+ i +:+ b) (len a) (len a + len i) = i.
Proof.
  unfold slice, len.
  replace (Z.to_nat (Z.of_nat (String.length a)))
    with (String.length a + 0)%nat by lia.
  replace (Z.to_nat (Z.of_nat (String.length a) + Z.of_nat (String.length i)
                     - Z.of_nat (String.length a)))
    with (String.length i) by lia.
  rewrite substring_skip. apply substring_prefix.
Qed.

Lemma quoted_inv (nextLine i : string) :
  quoted nextLine = Some i ->
  i <> EmptyString
  /\ exists pre post,
       nextLine = pre +:+ dq +:+ i +:+ dq +:+ post
       /\ has_byte DQ pre = false /\ has_byte DQ post = false.
Proof.
  unfold quoted.
  destruct (has_byte DQ nextLine) eqn:Hq.
  2:{ by rewrite (Index_none _ Hq). }
  destruct (split_first_quote _ Hq) as (pre & rest & Hn & Hpre).
  destruct (split_last_quote _ Hq) as (init & post & Hn' & Hpost).
  assert (HI : Index nextLine dq = len pre)
    by (rewrite Hn; by apply Index_first).
  assert (HL : LastIndex nextLine dq = len init)
    by (rewrite Hn'; by apply LastIndex_last).
  cbv zeta. rewrite HI, HL.
  destruct ((0 <? len pre + 1) && (len pre + 1 <? len init)) eqn:E; [|done].
  apply andb_true_iff in E as [_ E%Z.ltb_lt]. intros [= <-].
  assert (Heq : (pre +:+ dq) +:+ rest = init +:+ dq +:+ post)
    by (rewrite append_assoc; congruence).
  destruct (append_eq_split _ _ _ _ Heq) as (m & -> & ->).
  { rewrite length_append. unfold len in E. cbn. lia. }
  assert (Hslice : slice nextLine (len pre + 1) (len ((pre +:+ dq) +:+ m)) = m).
  { rewrite Hn', (append_assoc (pre +:+ dq) m), (len_append (pre +:+ dq) m).
    replace (len pre + 1) with (len (pre +:+ dq)) by (by rewrite len_append).
    apply slice_middle. }
  rewrite Hslice. split.
  - intros ->. rewrite append_nil_r in E. rewrite len_append in E.
    change (len dq) with 1 in E. lia.
  - exists pre, post. split; [|done].
    rewrite Hn'. by rewrite !append_assoc.
Qed.

(** X8: the value [parseProto] takes from an id or message line is the
    text between the first and the last double quote of the line, and it
    takes one exactly when that text is not empty: a line with fewer than
    two quotes, or with nothing between its only two, gives none. *)
Theorem quoted_between_quotes (nextLine i : string) :
  quoted nextLine = Some i
  <-> i <> EmptyString
      /\ exists pre post,
           nextLine = pre +:+ dq +:+ i +:+ dq +:+ post
           /\ has_byte DQ pre = false /\ has_byte DQ post = false.
Proof.
  split; [apply quoted_inv|]. unfold quoted.
  intros (Hi & pre & post & -> & Hpre & Hpost).
  assert (HI : Index (pre +:+ dq +:+ i +:+ dq +:+ post) dq = len pre)
    by (by apply Index_first).
  assert (HL : LastIndex (pre +:+ dq +:+ i +:+ dq +:+ post) dq
               = len ((pre +:+ dq) +:+ i)).
  { rewrite <- (LastIndex_last ((pre +:+ dq) +:+ i) post Hpost).
    by rewrite !append_assoc. }
  cbv zeta. rewrite HI, HL.
  assert (0 < len i).
  { destruct i; [done|]. rewrite len_cons. pose proof (len_nonneg i). lia. }
  pose proof (len_nonneg pre).
  rewrite !len_append. change (len dq) with 1.
  destruct ((0 <? len pre + 1) && (len pre + 1 <? len pre + 1 + len i)) eqn:E.
  2:{ apply andb_false_iff in E as [E%Z.ltb_ge|E%Z.ltb_ge]; lia. }
  f_equal. replace (len pre + 1) with (len (pre +:+ dq)) by (by rewrite len_append).
  rewrite <- (append_assoc pre dq). apply slice_middle.
Qed.

End QuotedValue.

Section ScanInvariants.

Lemma quoted_one_line n i :
  has_byte LF n = false -> quoted n = Some i -> has_byte LF i = false.
Proof.
  intros Hn. unfold quoted.
  destruct ((0 <? Index n dq + 1) && (Index n dq + 1 <? LastIndex n dq));
    [|done].
  intros [= <-]. by apply has_byte_slice.
Qed.

Lemma quoted_scanned_key l i :
  has_byte LF l = false -> quoted (TrimSpace l) = Some i -> scanned_key i.
Proof.
  intros Hl Hq. split.
  - by apply quoted_inv in Hq as [? _].
  - apply (quoted_one_line (TrimSpace l)); [|done]. auto with one_line.
Qed.

Lemma scan_good_add ids messages i :
  scan_good ids messages -> scanned_key i -> scan_good (ids ++ [i]) messages.
Proof.
  intros [Hids Hm] Hi. split.
  - intros j [Hj|Hj%list_elem_of_singleton]%elem_of_app; [by apply Hids|by subst].
  - intros k m Hk. destruct (Hm k m Hk). split; [|done].
    apply elem_of_app. by left.
Qed.

Lemma scan_good_record ids messages id message :
  scan_good ids messages -> id ∈ ids -> has_byte LF message = false ->
  scan_good ids (<[id := message]> messages).
Proof.
  intros [Hids Hm] Hid Hmsg. split; [done|]. intros k m.
  destruct (decide (id = k)) as [<-|Hne].
  - rewrite lookup_insert_eq. by intros [= <-].
  - rewrite lookup_insert_ne by done. apply Hm.
Qed.

Lemma scan_invariant (E : list string) lines :
  (forall l, l ∈ lines -> has_byte LF l = false) ->
  (forall ids messages, scan_good ids messages ->
     exists ids',
       fst (scan_outer lines (E ++ ids) messages) = E ++ ids'
       /\ scan_good ids' (snd (scan_outer lines (E ++ ids) messages)))
  /\ (forall id message ids messages,
        scan_good ids messages ->
        id = EmptyString \/ id ∈ ids -> has_byte LF message = false ->
        exists ids',
          fst (scan_block lines id message (E ++ ids) messages) = E ++ ids'
          /\ scan_good ids'
               (snd (scan_block lines id message (E ++ ids) messages))).
Proof.
  induction lines as [|l lines IH]; intros Hl.
  { split; intros; eexists; split; done. }
  destruct IH as [IHo IHb]; [intros l' ?; apply Hl; by right|].
  assert (Hll : has_byte LF l = false) by (apply Hl; by left).
  split.
  - intros ids messages Hg. rewrite scan_outer_cons.
    destruct (Contains l cel_marker); [|by apply IHo].
    apply IHb; [done|by left|done].
  - intros id message ids messages Hg Hid Hmsg. rewrite scan_block_cons.
    destruct (HasPrefix (TrimSpace l) "id:").
    { destruct (quoted (TrimSpace l)) as [i|] eqn:Hq; [|by apply IHb].
      pose proof (quoted_scanned_key _ _ Hll Hq) as Hi.
      rewrite <- app_assoc. apply IHb; [by apply scan_good_add| |done].
      right. apply elem_of_app. right. by left. }
    destruct (HasPrefix (TrimSpace l) "message:").
    { destruct (quoted (TrimSpace l)) as [m|] eqn:Hq; [|by apply IHb].
      apply IHb; [done|done|].
      apply (quoted_one_line (TrimSpace l)); [auto with one_line|done]. }
    destruct (closes_block (TrimSpace l)); [|by apply IHb].
    apply IHo. destruct (decide (id = EmptyString)) as [|Hne]; [done|].
    destruct Hid as [|Hid]; [done|]. by apply scan_good_record.
Qed.

Lemma scan_outer_no_marker lines entries messages :
  Forall (fun l => Contains l cel_marker = false) lines ->
  scan_outer lines entries messages = (entries, messages).
Proof.
  induction 1 as [|l lines Hl _ IH]; [done|].
  by rewrite scan_outer_cons, Hl.
Qed.

(** X9: what [parseProto] returns is the Keys of the selected enums
    followed by the ids of the raw-text scan; no such id is empty or holds
    a line feed; every Default Message belongs to one of these ids and
    holds no line feed; and a file without a marker line gives no id and no
    Default Message. *)
Theorem parseProto_keys_and_messages (Parse : string -> option Proto)
    (fs : filesystem) (path enumPrefix enumSuffix : string)
    (entries : list string) (messages : gmap string string) :
  parseProto Parse fs path enumPrefix enumSuffix = Ok (entries, messages) ->
  exists content definition ids,
    os_Open fs path = Ok content /\ Parse content = Some definition
    /\ entries = walk_enums enumPrefix enumSuffix definition ++ ids
    /\ (forall i, i ∈ ids -> scanned_key i)
    /\ (forall k m, messages !! k = Some m ->
          k ∈ ids /\ has_byte LF m = false)
    /\ (Forall (fun l => Contains l cel_marker = false)
          (scanned_lines content) ->
        ids = [] /\ messages = ∅).
Proof.
  unfold parseProto.
  destruct (os_Open fs path) as [content|] eqn:Ho; [|done].
  destruct (Parse content) as [definition|] eqn:Hp; [|done].
  destruct (Bufio.Scan content) as [lines scanErr] eqn:Hs.
  set (W := walk_enums enumPrefix enumSuffix definition).
  destruct (scan_outer lines W ∅) as [entries' messages'] eqn:Hscan.
  destruct scanErr; [done|]. intros [= <- <-].
  destruct (proj1 (scan_invariant W lines (Scan_no_lf _ _ _ Hs)) [] ∅)
    as (ids & Hids & Hgood).
  { split; [by intros i ?%elem_of_nil|]. intros k m. by rewrite lookup_empty. }
  rewrite app_nil_r, Hscan in Hids, Hgood. cbn [fst snd] in Hids, Hgood.
  exists content, definition, ids.
  split; [done|]. split; [done|]. split; [done|].
  destruct Hgood as [Hk Hm]. split; [done|]. split; [done|].
  intros Hnone. unfold Bufio.Scan in Hs. apply deliver_ok in Hs.
  unfold scanned_lines in Hnone. rewrite <- Hs in Hnone.
  rewrite (scan_outer_no_marker _ _ _ Hnone) in Hscan.
  injection Hscan as <- <-. split; [|done].
  apply (app_inv_head W). by rewrite app_nil_r.
Qed.

Lemma parseProto_keys_and_messages_witness :
  exists content definition ids,
    os_Open sample_sources "api/a.proto" = Ok content
    /\ sample_parse content = Some definition
    /\ ["NOT_FOUND"; "DENIED"; "invalid_input"]
       = walk_enums EmptyString "Error" definition ++ ids
    /\ (forall i, i ∈ ids -> scanned_key i).
Proof.
  destruct (parseProto_keys_and_messages sample_parse sample_sources
              "api/a.proto" EmptyString "Error"
              ["NOT_FOUND"; "DENIED"; "invalid_input"]
              {[ "invalid_input" := "must not be empty" ]})
    as (content & definition & ids & H1 & H2 & H3 & H4 & _);
    [vm_compute; reflexivity|].
  by exists content, definition, ids.
Defined.

End ScanInvariants.

(** * The validation-rule block *)

Section ValidationBlocks.













End ValidationBlocks.

Section AggregationInvariants.

Lemma aggregate_results_messages results k :
  allMessages (aggregate_results results) !! k
  = first_message (concat (map tagged_entries results)) k.
Proof.
  unfold aggregate_results. rewrite aggregate_tagged, aggregated_messages.
  cbn. rewrite lookup_empty.
  by destruct (first_message (concat (map tagged_entries results)) k).
Qed.

Lemma aggregate_results_entries results k :
  k ∈ allEntries (aggregate_results results)
  <-> k ∈ map fst (concat (map tagged_entries results)).
Proof.
  unfold aggregate_results. rewrite aggregate_tagged, aggregated_entries.
  cbn [allEntries no_entries app]. rewrite filter_all by done.
  apply first_seen_elem.
Qed.

Lemma seen_aggregated occs a k :
  seen (fold_left add_tagged occs a) k = true
  <-> seen a k = true \/ k ∈ map fst occs.
Proof.
  revert a. induction occs as [|[x m] occs IH]; intros a.
  - cbn. split; [by left|]. intros [?|?%elem_of_nil]; done.
  - cbn [fold_left map fst]. rewrite IH, elem_of_cons.
    change (add_tagged a (x, m)) with (add_entry m a x).
    unfold add_entry. destruct (seen a x) eqn:Hx.
    + split; [tauto|]. intros [?|[->|?]]; tauto.
    + unfold seen at 1. cbn [seenEntries].
      destruct (decide (x = k)) as [->|Hne].
      * rewrite lookup_insert_eq. cbn. tauto.
      * rewrite lookup_insert_ne by done. fold (seen a k).
        split; [tauto|]. intros [?|[->|?]]; tauto.
Qed.

Lemma add_tagged_seen occs a :
  (forall k, k ∈ map fst occs -> seen a k = true) ->
  fold_left add_tagged occs a = a.
Proof.
  induction occs as [|[x m] occs IH]; intros H; [done|].
  cbn [fold_left]. change (add_tagged a (x, m)) with (add_entry m a x).
  unfold add_entry. rewrite (H x) by (by left). apply IH.
  intros k ?. apply H. by right.
Qed.

(** X10: after the loop of main, the aggregated map has an entry exactly
    for the Keys of the aggregated list (so that the lookup of a listed
    Key's Default Message never misses), and exactly those Keys are marked
    as seen. *)
Theorem aggregate_messages_domain
    (results : list (result (list string * gmap string string)))
    (k : string) :
  (is_Some (allMessages (aggregate_results results) !! k)
   <-> k ∈ allEntries (aggregate_results results))
  /\ (seen (aggregate_results results) k = true
      <-> k ∈ allEntries (aggregate_results results)).
Proof.
  rewrite aggregate_results_messages, aggregate_results_entries. split.
  - split; [|apply first_message_present].
    intros [v Hv]. destruct (decide (k ∈ map fst (concat (map tagged_entries results))));
      [done|]. by rewrite first_message_absent in Hv.
  - unfold aggregate_results. rewrite aggregate_tagged, seen_aggregated.
    split; [by intros [?|?]|by right].
Qed.

(** X11: a file all of whose Keys occur in the files before it leaves the
    aggregate as it was: neither its Keys nor its Default Messages are
    taken. *)
Theorem aggregate_absorbs
    (results : list (result (list string * gmap string string)))
    (r : result (list string * gmap string string)) :
  (forall k, k ∈ entries_of r -> k ∈ concat (map entries_of results)) ->
  aggregate_results (results ++ [r]) = aggregate_results results.
Proof.
  intros H. unfold aggregate_results. rewrite fold_left_app. cbn [fold_left].
  rewrite add_file_tagged. apply add_tagged_seen. intros k Hk.
  rewrite aggregate_tagged. apply seen_aggregated. right.
  rewrite tagged_keys. apply H.
  rewrite <- (app_nil_r (entries_of r)).
  change (entries_of r ++ []) with (concat (map entries_of [r])).
  rewrite <- tagged_keys. cbn [map concat]. by rewrite app_nil_r.
Qed.

Lemma aggregate_absorbs_witness :
  (forall k, k ∈ entries_of late_result ->
     k ∈ concat (map entries_of sample_results))
  /\ aggregate_results (sample_results ++ [late_result])
     = aggregate_results sample_results.
Proof.
  assert (H : forall k, k ∈ entries_of late_result ->
                k ∈ concat (map entries_of sample_results)).
  { intros k Hk. repeat (apply elem_of_cons in Hk as [->|Hk]).
    - right; left.
    - left.
    - by apply elem_of_nil in Hk. }
  split; [exact H|]. exact (aggregate_absorbs sample_results late_result H).
Defined.

(** X17: processing further files keeps what is aggregated: the Key list
    so far is a prefix of the later one, and its Keys keep their Default
    Messages. *)
Theorem aggregate_extends
    (results more : list (result (list string * gmap string string))) :
  (exists new,
     allEntries (aggregate_results (results ++ more))
     = allEntries (aggregate_results results) ++ new)
  /\ (forall k, k ∈ allEntries (aggregate_results results) ->
        allMessages (aggregate_results (results ++ more)) !! k
        = allMessages (aggregate_results results) !! k).
Proof.
  unfold aggregate_results. rewrite fold_left_app.
  set (a := fold_left add_file results no_entries).
  rewrite aggregate_tagged. split.
  - rewrite aggregated_entries. by eexists.
  - intros k Hk. rewrite aggregated_messages.
    assert (Hseen : seen a k = true).
    { unfold a. rewrite aggregate_tagged. apply seen_aggregated. right.
      by apply aggregate_results_entries. }
    by rewrite Hseen.
Qed.

End AggregationInvariants.

(** * Properties of main *)

Section MainRun.

Variable Parse : string -> option Proto.
Variables (protoFiles : list string) (enumPrefix enumSuffix outputDir : string).
Variables (entries : list string) (messages : gmap string string).

Lemma generate_lang_unfold fs lang :
  generate_lang entries messages outputDir fs lang
  = if decide (TrimSpace lang = EmptyString) then fs
    else fst (generateTOML fs entries messages
                (catalog_path outputDir (TrimSpace lang))).
Proof. reflexivity. Qed.

Lemma generate_lang_frame fs lang p :
  p <> catalog_path outputDir (TrimSpace lang) ->
  generate_lang entries messages outputDir fs lang !! p = fs !! p.
Proof.
  intros Hp. rewrite generate_lang_unfold.
  destruct (decide (TrimSpace lang = EmptyString)); [done|].
  by apply generateTOML_frame.
Qed.

Lemma generate_all_frame langList fs p :
  (forall lang, lang ∈ langList ->
     p <> catalog_path outputDir (TrimSpace lang)) ->
  fold_left (generate_lang entries messages outputDir) langList fs !! p
  = fs !! p.
Proof.
  revert fs. induction langList as [|lang langs IH]; intros fs H; [done|].
  cbn [fold_left]. rewrite IH.
  - apply generate_lang_frame, H. by left.
  - intros l ?. apply H. by right.
Qed.

Lemma loadExistingTOML_same fs1 fs2 path :
  fs1 !! path = fs2 !! path ->
  loadExistingTOML fs1 path = loadExistingTOML fs2 path.
Proof. intros H. rewrite !loadExistingTOML_cases. by rewrite H. Qed.

Lemma generate_lang_failing fs lang :
  is_ok (loadExistingTOML fs (catalog_path outputDir (TrimSpace lang))) = false ->
  generate_lang entries messages outputDir fs lang = fs.
Proof.
  intros H. rewrite generate_lang_unfold.
  destruct (decide (TrimSpace lang = EmptyString)); [done|].
  destruct (loadExistingTOML fs (catalog_path outputDir (TrimSpace lang)))
    as [|e] eqn:E; [done|].
  by apply generateTOML_failed with e.
Qed.

(** A catalog that cannot be read stays as it is whatever languages are
    processed. *)
Lemma generate_all_keeps_unreadable langList fs p :
  is_ok (loadExistingTOML fs p) = false ->
  fold_left (generate_lang entries messages outputDir) langList fs !! p
  = fs !! p.
Proof.
  revert fs. induction langList as [|lang langs IH]; intros fs H; [done|].
  cbn [fold_left].
  assert (Hstep : generate_lang entries messages outputDir fs lang !! p
                  = fs !! p).
  { destruct (decide (p = catalog_path outputDir (TrimSpace lang))) as [->|Hne].
    - by rewrite generate_lang_failing.
    - by apply generate_lang_frame. }
  rewrite IH; [done|]. by rewrite (loadExistingTOML_same _ fs).
Qed.

End MainRun.

Section MainProperties.

(** X12: beyond what [os.MkdirAll] does, main changes no path that is
    not the catalog path of one of the language codes: every other path is
    as [os.MkdirAll] left it, or as it was when no Key was found. *)
Theorem main_touches_catalogs_only (Parse : string -> option Proto)
    (os_MkdirAll : filesystem -> string -> filesystem * option error)
    (fs : filesystem) (protoFiles : list string)
    (enumPrefix enumSuffix outputDir : string) (langList : list string)
    (p : string) :
  (forall lang, lang ∈ langList ->
     p <> catalog_path outputDir (TrimSpace lang)) ->
  main Parse os_MkdirAll fs protoFiles enumPrefix enumSuffix outputDir
    langList !! p
  = match allEntries (collect Parse fs protoFiles enumPrefix enumSuffix) with
    | [] => fs !! p
    | _ => fst (os_MkdirAll fs outputDir) !! p
    end.
Proof.
  intros H. unfold main.
  destruct (allEntries (collect Parse fs protoFiles enumPrefix enumSuffix));
    [done|].
  destruct (os_MkdirAll fs outputDir) as [fs' [e|]]; [done|].
  by apply generate_all_frame.
Qed.

Lemma main_touches_catalogs_only_witness :
  (forall lang, lang ∈ ["en"; " de "] ->
     "api/a.proto" <> catalog_path "i18n" (TrimSpace lang))
  /\ main sample_parse sample_mkdir sample_sources ["api/a.proto"]
       EmptyString "Error" "i18n" ["en"; " de "] !! "api/a.proto"
     = Some (Regular sample_proto).
Proof.
  assert (H : forall lang, lang ∈ ["en"; " de "] ->
                "api/a.proto" <> catalog_path "i18n" (TrimSpace lang)).
  { intros lang Hl. repeat (apply elem_of_cons in Hl as [->|Hl]);
      [discriminate | discriminate | by apply elem_of_nil in Hl]. }
  split; [exact H|].
  rewrite (main_touches_catalogs_only sample_parse sample_mkdir
             sample_sources ["api/a.proto"] EmptyString "Error" "i18n"
             ["en"; " de "] "api/a.proto" H).
  vm_compute; reflexivity.
Defined.

(** X14: a language whose catalog cannot be read once the output directory
    is made (it cannot be opened, or holds an over-long line) is skipped
    and the other languages proceed: the run is the one without that
    language code. *)
Theorem main_skips_failing_language (Parse : string -> option Proto)
    (os_MkdirAll : filesystem -> string -> filesystem * option error)
    (fs : filesystem) (protoFiles : list string)
    (enumPrefix enumSuffix outputDir : string)
    (before : list string) (bad : string) (after : list string) :
  is_ok (loadExistingTOML (fst (os_MkdirAll fs outputDir))
           (catalog_path outputDir (TrimSpace bad))) = false ->
  main Parse os_MkdirAll fs protoFiles enumPrefix enumSuffix outputDir
    (before ++ bad :: after)
  = main Parse os_MkdirAll fs protoFiles enumPrefix enumSuffix outputDir
      (before ++ after).
Proof.
  intros H. unfold main.
  destruct (allEntries (collect Parse fs protoFiles enumPrefix enumSuffix))
    as [|e es]; [done|].
  destruct (os_MkdirAll fs outputDir) as [fs' [err|]]; [done|].
  cbn [fst] in H.
  rewrite !fold_left_app. cbn [fold_left]. f_equal.
  apply generate_lang_failing.
  erewrite loadExistingTOML_same; [exact H|].
  by apply generate_all_keeps_unreadable.
Qed.

Lemma main_skips_failing_language_witness :
  is_ok (loadExistingTOML (fst (sample_mkdir locked_run "i18n"))
           (catalog_path "i18n" (TrimSpace " en")))
  = false
  /\ main sample_parse sample_mkdir locked_run ["api/a.proto"] EmptyString
       "Error" "i18n" (["de"] ++ " en" :: ["fr"])
     = main sample_parse sample_mkdir locked_run ["api/a.proto"] EmptyString
         "Error" "i18n" (["de"] ++ ["fr"])
  /\ is_Some (main sample_parse sample_mkdir locked_run ["api/a.proto"]
                EmptyString "Error" "i18n" (["de"] ++ " en" :: ["fr"])
              !! "i18n/fr.toml").
Proof.
  split; [vm_compute; reflexivity|]. split.
  - apply (main_skips_failing_language sample_parse sample_mkdir locked_run
             ["api/a.proto"] EmptyString "Error" "i18n" ["de"] " en" ["fr"]).
    vm_compute; reflexivity.
  - vm_compute. by eexists.
Defined.

End MainProperties.

(** * The earlier version and the later one *)

Section EarlierVersion.

Lemma earlier_written entryMap entries buffer :
  fold_left (fun buffer entry =>
               buffer +:+ toml_block entry (map_get entryMap entry))
            entries buffer
  = buffer +:+ catalog_text (map (fun k => (k, map_get entryMap k)) entries).
Proof.
  revert buffer. induction entries as [|e es IH]; intros buffer; simpl.
  - by rewrite append_nil_r.
  - rewrite IH. by rewrite append_assoc.
Qed.

Lemma earlier_render entries existing :
  Earlier.render entries existing
  = catalog_text (map (fun k => (k, map_get existing k)) entries).
Proof.
  unfold Earlier.render. rewrite earlier_written, append_nil_l. f_equal.
  apply map_ext_in. intros k Hk%(proj2 (list_elem_of_In _ _)). f_equal.
  unfold map_get at 1. rewrite merged_lookup.
  by destruct (decide (k ∈ entries)).
Qed.

(** X15: for Keys that have no Default Message, or an empty one,
    [generateTOML] does what the earlier version did: the same file
    system and the same error. *)
Theorem generateTOML_as_earlier (fs : filesystem) (entries : list string)
    (messages : gmap string string) (path : string) :
  (forall k, k ∈ entries -> map_get messages k = EmptyString) ->
  generateTOML fs entries messages path = Earlier.generateTOML fs entries path.
Proof.
  intros H. unfold generateTOML, Earlier.generateTOML.
  destruct (loadExistingTOML fs path) as [existing|e]; [|done].
  rewrite render_spec, earlier_render.
  replace (map (fun k => (k, spec_text messages existing k)) entries)
    with (map (fun k => (k, map_get existing k)) entries); [done|].
  apply map_ext_in. intros k Hk%(proj2 (list_elem_of_In _ _)). f_equal.
  assert (Hd : default_message messages k = EmptyString)
    by (etrans; [apply default_message_get|by apply H]).
  unfold spec_text, map_get. rewrite Hd.
  destruct (existing !! k) as [v|]; [|done]. cbn.
  by destruct (decide (v = EmptyString)) as [->|].
Qed.

Lemma generateTOML_as_earlier_witness :
  (forall k, k ∈ ["NOT_FOUND"; "STALE"] ->
     map_get sample_messages k = EmptyString)
  /\ generateTOML sample_fs ["NOT_FOUND"; "STALE"] sample_messages
       "i18n/de.toml"
     = Earlier.generateTOML sample_fs ["NOT_FOUND"; "STALE"] "i18n/de.toml".
Proof.
  assert (H : forall k, k ∈ ["NOT_FOUND"; "STALE"] ->
                map_get sample_messages k = EmptyString).
  { intros k Hk. repeat (apply elem_of_cons in Hk as [->|Hk]);
      [reflexivity | reflexivity | by apply elem_of_nil in Hk]. }
  split; [exact H|].
  exact (generateTOML_as_earlier sample_fs ["NOT_FOUND"; "STALE"]
           sample_messages "i18n/de.toml" H).
Defined.

Lemma earlier_scan_bound lines :
  (forall entries,
     (length (Earlier.scan_outer lines entries)
      <= length entries + marker_lines lines)%nat)
  /\ (forall entries,
        (length (Earlier.scan_id lines entries)
         <= S (length entries + marker_lines lines))%nat).
Proof.
  induction lines as [|l lines [IHo IHb]]; [split; intros; cbn; lia|].
  assert (Hm : (marker_lines lines <= marker_lines (l :: lines))%nat).
  { unfold marker_lines. rewrite filter_cons.
    destruct (decide (Contains l cel_marker = true)); cbn; lia. }
  split; intros entries.
  - cbn [Earlier.scan_outer]. unfold marker_lines. rewrite filter_cons.
    destruct (Contains l cel_marker) eqn:E.
    + rewrite decide_True by done. cbn [length].
      specialize (IHb entries). unfold marker_lines in IHb. lia.
    + rewrite decide_False by done.
      specialize (IHo entries). unfold marker_lines in IHo. lia.
  - cbn [Earlier.scan_id].
    destruct (HasPrefix (TrimSpace l) "id:").
    + destruct (quoted (TrimSpace l)) as [i|].
      * specialize (IHo (entries ++ [i])). rewrite length_app in IHo.
        cbn in IHo. lia.
      * specialize (IHo entries). lia.
    + specialize (IHb entries). lia.
Qed.

Lemma earlier_walk_enums definition :
  Earlier.walk_enums definition
  = walk_enums EmptyString EmptyString definition.
Proof.
  unfold Earlier.walk_enums, walk_enums. generalize (@nil string) as acc.
  induction definition as [|e d IH]; intros acc; [done|].
  cbn [fold_left]. rewrite IH. reflexivity.
Qed.

(** X16: the earlier [parseProto] takes at most one id per marker line:
    it returns the names of all enum fields followed by no more ids than
    the file has lines that hold the marker.  The later one takes every id
    line of a block. *)
Theorem earlier_parseProto_one_id_per_marker (Parse : string -> option Proto)
    (fs : filesystem) (path : string) (entries : list string) :
  Earlier.parseProto Parse fs path = Ok entries ->
  exists content definition,
    os_Open fs path = Ok content /\ Parse content = Some definition
    /\ (length entries
        <= length (Earlier.walk_enums definition)
           + marker_lines (scanned_lines content))%nat
    /\ Earlier.walk_enums definition
       = walk_enums EmptyString EmptyString definition.
Proof.
  unfold Earlier.parseProto.
  destruct (os_Open fs path) as [content|] eqn:Ho; [|done].
  destruct (Parse content) as [definition|] eqn:Hp; [|done].
  destruct (Bufio.Scan content) as [lines scanErr] eqn:Hs.
  destruct scanErr; [done|]. intros [= <-].
  exists content, definition. split; [done|]. split; [done|]. split.
  - unfold Bufio.Scan in Hs. apply deliver_ok in Hs. subst lines.
    apply earlier_scan_bound.
  - apply earlier_walk_enums.
Qed.

Lemma earlier_parseProto_one_id_per_marker_witness :
  exists content definition,
    os_Open sample_sources "api/a.proto" = Ok content
    /\ sample_parse content = Some definition
    /\ (length ["NOT_FOUND"; "DENIED"; "ACTIVE"; "invalid_input"]
        <= length (Earlier.walk_enums definition)
           + marker_lines (scanned_lines content))%nat.
Proof.
  destruct (earlier_parseProto_one_id_per_marker sample_parse sample_sources
              "api/a.proto"
              ["NOT_FOUND"; "DENIED"; "ACTIVE"; "invalid_input"])
    as (content & definition & H1 & H2 & H3 & _); [vm_compute; reflexivity|].
  by exists content, definition.
Defined.

Lemma earlier_generateTOML_failing fs entries path :
  is_ok (loadExistingTOML fs path) = false ->
  exists e, Earlier.generateTOML fs entries path = (fs, Some e).
Proof.
  intros H. unfold Earlier.generateTOML.
  destruct (loadExistingTOML fs path); [done|]. by eexists.
Qed.

Lemma earlier_generateTOML_frame fs entries path p :
  p <> path -> fst (Earlier.generateTOML fs entries path) !! p = fs !! p.
Proof.
  intros Hp. unfold Earlier.generateTOML, os_WriteFile.
  destruct (loadExistingTOML fs path); [|done].
  destruct (fs !! path) as [[c|]|]; cbn [fst]; try done;
    by rewrite lookup_insert_ne.
Qed.

Lemma earlier_generate_all_stops fs entries outputDir before bad after :
  is_ok (loadExistingTOML fs (catalog_path outputDir bad)) = false ->
  Earlier.generate_all fs entries outputDir (before ++ bad :: after)
  = Earlier.generate_all fs entries outputDir before.
Proof.
  revert fs. induction before as [|v before IH]; intros fs H.
  - cbn [app Earlier.generate_all]. fold (catalog_path outputDir bad).
    by destruct (earlier_generateTOML_failing fs entries _ H) as [e ->].
  - cbn [app Earlier.generate_all]. fold (catalog_path outputDir v).
    destruct (Earlier.generateTOML fs entries (catalog_path outputDir v))
      as [fs' [e|]] eqn:E; [done|].
    apply IH.
    destruct (decide (catalog_path outputDir bad = catalog_path outputDir v))
      as [Heq|Hne].
    + rewrite Heq in H.
      destruct (earlier_generateTOML_failing fs entries _ H) as [e He].
      by rewrite He in E.
    + rewrite (loadExistingTOML_same fs' fs); [done|].
      pose proof (earlier_generateTOML_frame fs entries _ _ Hne) as Hf.
      by rewrite E in Hf.
Qed.

(** X18: in the earlier version a language whose catalog cannot be read
    once the output directory is made ends main: the language codes after
    it get no catalog, where the later version goes on with them. *)
Theorem earlier_main_stops_at_failure (Parse : string -> option Proto)
    (os_MkdirAll : filesystem -> string -> filesystem * option error)
    (fs : filesystem) (protoFile outputDir : string)
    (before : list string) (bad : string) (after : list string) :
  is_ok (loadExistingTOML (fst (os_MkdirAll fs outputDir))
           (catalog_path outputDir bad)) = false ->
  Earlier.main Parse os_MkdirAll fs protoFile outputDir
    (before ++ bad :: after)
  = Earlier.main Parse os_MkdirAll fs protoFile outputDir before.
Proof.
  intros H. unfold Earlier.main.
  destruct (Earlier.parseProto Parse fs protoFile); [|done].
  destruct (os_MkdirAll fs outputDir) as [fs' [err|]]; [done|].
  by apply earlier_generate_all_stops.
Qed.

Lemma earlier_main_stops_at_failure_witness :
  is_ok (loadExistingTOML (fst (sample_mkdir locked_run "i18n"))
           (catalog_path "i18n" "en")) = false
  /\ Earlier.main sample_parse sample_mkdir locked_run "api/a.proto" "i18n"
       (["de"] ++ "en" :: ["fr"]) !! "i18n/fr.toml" = None
  /\ is_Some (main sample_parse sample_mkdir locked_run ["api/a.proto"]
                EmptyString EmptyString "i18n" ["de"; "en"; "fr"]
              !! "i18n/fr.toml").
Proof.
  split; [vm_compute; reflexivity|]. split.
  - rewrite (earlier_main_stops_at_failure sample_parse sample_mkdir
               locked_run "api/a.proto" "i18n" ["de"] "en" ["fr"]);
      vm_compute; reflexivity.
  - vm_compute. by eexists.
Defined.

End EarlierVersion.

(** * Regeneration settles *)

Section Settling.

Variables (entries : list string) (messages : gmap string string).
Hypothesis one_line :
  forall k, k ∈ entries ->
    has_byte LF k = false /\ has_byte LF (map_get messages k) = false.

(** The texts of a run that reads the catalog of the run before. *)
Lemma next_texts fs path (existing existing' : gmap string string) k :
  well_read existing ->
  loadExistingTOML
    (<[path := Regular
                 (catalog_text
                    (map (fun k => (k, spec_text messages existing k)) entries))]>
       fs) path = Ok existing' ->
  k ∈ entries ->
  spec_text messages existing' k
  = if decide (k = EmptyString) then map_get messages k
    else if decide (Trim (spec_text messages existing k) dq = EmptyString)
         then map_get messages k
         else Trim (spec_text messages existing k) dq.
Proof.
  intros Hw Hload Hk.
  pose proof (loadExistingTOML_entries _ _ _ _ (lookup_insert_eq _ _ _) Hload)
    as ->.
  unfold spec_text at 1. rewrite catalog_entries_written.
  2:{ intros e He. destruct (one_line e He). split; [done|].
      by apply spec_text_one_line. }
  assert (Hd : default_message messages k = map_get messages k)
    by apply default_message_get.
  rewrite Hd.
  destruct (decide (k = EmptyString)) as [->|Hne].
  - rewrite decide_False; [done|]. by intros [_ ?].
  - rewrite decide_True by done.
    by destruct (decide (Trim (spec_text messages existing k) dq = EmptyString)).
Qed.

Lemma settled_texts (existing : gmap string string) k :
  well_read existing ->
  let t1 := spec_text messages existing k in
  let t2 := if decide (Trim t1 dq = EmptyString) then map_get messages k
            else Trim t1 dq in
  (if decide (Trim t2 dq = EmptyString) then map_get messages k
   else Trim t2 dq) = t2.
Proof.
  intros Hw t1 t2. unfold t2.
  destruct (decide (Trim t1 dq = EmptyString)) as [He|Hne].
  - assert (Ht1 : t1 = map_get messages k).
    { unfold t1, spec_text in *.
      assert (Hd : default_message messages k = map_get messages k)
        by apply default_message_get.
      rewrite Hd in *.
      destruct (existing !! k) as [v|] eqn:Ev; [|done].
      destruct (decide (v = EmptyString)); [done|].
      destruct (Hw k v Ev) as (_ & _ & Hb).
      rewrite (Trim_bare _ Hb) in He. done. }
    rewrite <- Ht1, He. by rewrite decide_True.
  - rewrite (Trim_bare (Trim t1 dq)) by apply bare_Trim.
    by rewrite decide_False.
Qed.

End Settling.

Section SettlingProperty.

(** X19: whatever the Default Messages begin or end with, regeneration
    settles with the second run: when the Keys and their Default Messages
    hold no line feed, a third run of [generateTOML] with the same Keys
    and Default Messages leaves every file as the second run left it. *)
Theorem generateTOML_settles (fs : filesystem) (entries : list string)
    (messages : gmap string string) (path : string) :
  (forall k, k ∈ entries ->
     has_byte LF k = false /\ has_byte LF (map_get messages k) = false) ->
  let run fs := fst (generateTOML fs entries messages path) in
  run (run (run fs)) = run (run fs).
Proof.
  intros H run. unfold run.
  destruct (loadExistingTOML fs path) as [existing|e] eqn:Hload.
  2:{ by rewrite !(generateTOML_failed _ _ _ _ _ Hload). }
  pose proof (loadExistingTOML_well_read _ _ _ Hload) as Hw.
  rewrite (generateTOML_ok _ _ _ _ _ Hload), render_spec. cbn [fst].
  set (fs1 := <[path := Regular _]> fs).
  destruct (loadExistingTOML fs1 path) as [existing1|e] eqn:Hload1.
  2:{ by rewrite !(generateTOML_failed _ _ _ _ _ Hload1). }
  pose proof (loadExistingTOML_well_read _ _ _ Hload1) as Hw1.
  rewrite (generateTOML_ok _ _ _ _ _ Hload1), render_spec. cbn [fst].
  set (fs2 := <[path := Regular _]> fs1).
  destruct (loadExistingTOML fs2 path) as [existing2|e] eqn:Hload2.
  2:{ by rewrite (generateTOML_failed _ _ _ _ _ Hload2). }
  rewrite (generateTOML_ok _ _ _ _ _ Hload2), render_spec. cbn [fst].
  assert (Hsame : map (fun k => (k, spec_text messages existing2 k)) entries
                  = map (fun k => (k, spec_text messages existing1 k)) entries).
  { apply map_ext_in. intros k Hk%(proj2 (list_elem_of_In _ _)). f_equal.
    rewrite (next_texts entries messages H fs1 path existing1 existing2 k Hw1
               Hload2 Hk).
    rewrite (next_texts entries messages H fs path existing existing1 k Hw
               Hload1 Hk).
    destruct (decide (k = EmptyString)); [done|].
    apply (settled_texts messages existing k Hw). }
  rewrite Hsame. unfold fs2. by rewrite insert_insert_eq.
Qed.

Lemma generateTOML_settles_witness :
  (forall k, k ∈ ["name_quoted"] ->
     has_byte LF k = false /\ has_byte LF (map_get quoting_messages k) = false)
  /\ fst (generateTOML
            (fst (generateTOML
                    (fst (generateTOML ∅ ["name_quoted"] quoting_messages
                            "i18n/en.toml"))
                    ["name_quoted"] quoting_messages "i18n/en.toml"))
            ["name_quoted"] quoting_messages "i18n/en.toml")
     = fst (generateTOML
              (fst (generateTOML ∅ ["name_quoted"] quoting_messages
                      "i18n/en.toml"))
              ["name_quoted"] quoting_messages "i18n/en.toml").
Proof.
  assert (H : forall k, k ∈ ["name_quoted"] ->
     has_byte LF k = false /\ has_byte LF (map_get quoting_messages k) = false).
  { intros k Hk. apply elem_of_cons in Hk as [->|Hk];
      [split; reflexivity | by apply elem_of_nil in Hk]. }
  split; [exact H|].
  exact (generateTOML_settles ∅ ["name_quoted"] quoting_messages
           "i18n/en.toml" H).
Defined.

End SettlingProperty.
